(** * Complex base numeral systems: the numeral-evaluation core of [app.py]

    A shallow embedding of [generate_roots_of_unity], [from_repr], [to_base]
    and of the numeric part of [draw], with the properties of the
    specification stated over it.

    Modelling conventions.
    - Python [int] is [Z]; [%] and [//] are [Z.modulo] and [Z.div], which
      agree with Python's floor division for every non-zero divisor.
    - Python [str] is [string]; [str(i)] of an integer is its decimal
      numeral, with a leading minus sign for negative numbers.
    - A call either returns, raises, or is still inside its [while] loop
      when the fuel is used up ([outcome]).
    - [from_repr] and [draw] are duck-typed: they run on whatever numbers
      they are given. They are embedded twice. Over the class [Numeric],
      the numbers of exact arithmetic, with the instance Python [int]
      ([Z]): there [pow] always returns. And, in [General], over the class
      [PyNumber], numbers whose [pow] may raise, which covers Python
      [float] and [complex]; on exact numbers the two embeddings agree
      ([from_repr_exact], [draw_exact]).
    - Python [complex] is a pair of binary64 numbers ([Binary64], over the
      kernel's primitive floats); [pow(z, n)] follows CPython's
      [complex_pow]: repeated multiplication by squaring for an exponent of
      at most 100, and [OverflowError] when the result has an infinite
      part. The path for larger exponents calls the C library and is a
      parameter.
    - [cmath.exp(2j * pi * k / n)] is computed by the C library: its value
      is a parameter of [generate_roots_of_unity].
    - Characters are 8-bit: a [string] stands for a Python string of
      characters below U+0100, among which [int] accepts ['0'] to ['9']
      only.
    - The weights [length / max_length] of [draw] are exact rationals. *)

From Stdlib Require Import ZArith List String Ascii Bool Lia.
From Stdlib Require Import DecimalString DecimalPos QArith Floats.
Import ListNotations.

Set Implicit Arguments.
Local Open Scope Z_scope.

(** ** Outcomes of a call *)

Inductive exn : Type :=
| ZeroDivisionError
| IndexError
| ValueError
| OverflowError.

Inductive outcome (A : Type) : Type :=
| Returns (a : A)
| Raises (e : exn)
| OutOfFuel.

Arguments Raises {A} e.
Arguments OutOfFuel {A}.

Definition bind {A B : Type} (m : outcome A) (k : A -> outcome B) : outcome B :=
  match m with
  | Returns a => k a
  | Raises e => Raises e
  | OutOfFuel => OutOfFuel
  end.

Notation "x <- m ;; k" := (bind m (fun x => k))
  (at level 61, m at next level, right associativity).

(** [fails o]: the call ends in an error condition of some kind. *)
Definition fails {A : Type} (o : outcome A) : Prop := exists e, o = Raises e.

(** A list comprehension [[f(x) for x in xs]]: the elements are computed
    from left to right and the first failure ends the comprehension. *)
Fixpoint comprehension {A B : Type} (f : A -> outcome B) (xs : list A)
  : outcome (list B) :=
  match xs with
  | [] => Returns []
  | x :: rest =>
      y <- f x ;;
      ys <- comprehension f rest ;;
      Returns (y :: ys)
  end.

(** ** Python built-ins used by the program *)

(** [str(i)] for an integer [i]. *)
Definition str (i : Z) : string := NilZero.string_of_int (Z.to_int i).

(** [len(s)] for a string and for a list. *)
Definition len (s : string) : Z := Z.of_nat (String.length s).
Definition len_list {A : Type} (l : list A) : Z := Z.of_nat (List.length l).

(** [range(n)] and [range(a, b)]. *)
Definition range2 (a b : Z) : list Z :=
  map (fun k => a + Z.of_nat k) (seq 0 (Z.to_nat (b - a))).
Definition range (n : Z) : list Z := range2 0 n.

(** [int(c)] for a one-character string: the value of a decimal digit,
    [ValueError] for any other character. Characters are 8-bit: among the
    characters below U+0100, [int] accepts ['0'] to ['9'] only. *)
Definition digit_value (c : ascii) : option Z :=
  let n := Z.of_nat (nat_of_ascii c) in
  if (48 <=? n) && (n <=? 57) then Some (n - 48) else None.

Definition int_of_char (c : ascii) : outcome Z :=
  match digit_value c with
  | Some d => Returns d
  | None => Raises ValueError
  end.

(** [l[i]]: negative indices count from the end, and an index outside the
    list raises [IndexError]. *)
Definition getitem {A : Type} (l : list A) (i : Z) : outcome A :=
  let j := if i <? 0 then i + len_list l else i in
  if j <? 0 then Raises IndexError
  else match nth_error l (Z.to_nat j) with
       | Some x => Returns x
       | None => Raises IndexError
       end.

(** [s[::-1]] and [enumerate]. *)
Definition reversed (s : string) : list ascii := rev (list_ascii_of_string s).

Fixpoint enumerate_from {A : Type} (start : nat) (l : list A) : list (nat * A) :=
  match l with
  | [] => []
  | x :: rest => (start, x) :: enumerate_from (S start) rest
  end.

Definition enumerate {A : Type} (l : list A) : list (nat * A) := enumerate_from 0 l.

(** [max(l)] of a list of integers: [ValueError] on the empty list. *)
Definition py_max (l : list Z) : outcome Z :=
  match l with
  | [] => Raises ValueError
  | x :: rest => Returns (fold_left Z.max rest x)
  end.

(** [a / b] on integers: true division. *)
Definition truediv (a b : Z) : outcome Q :=
  if b =? 0 then Raises ZeroDivisionError
  else Returns (Qdiv (inject_Z a) (inject_Z b)).

(** ** Numbers *)

Class Numeric (C : Type) : Type := {
  czero : C;
  cone : C;
  cadd : C -> C -> C;
  cmul : C -> C -> C;
  of_int : Z -> C
}.

(** [pow(radix, index)] for a non-negative integer exponent; [pow(r, 0)] is
    [1] for every [r]. *)
Fixpoint cpow {C : Type} `{Numeric C} (r : C) (n : nat) : C :=
  match n with
  | O => cone
  | S m => cmul r (cpow r m)
  end.

(** The laws of exact arithmetic that the proofs rely on. *)
Class NumericLaws (C : Type) `{Numeric C} : Prop := {
  cadd_0_l : forall x, cadd czero x = x;
  cadd_comm : forall x y, cadd x y = cadd y x;
  cadd_assoc : forall x y z, cadd x (cadd y z) = cadd (cadd x y) z;
  cmul_0_l : forall x, cmul czero x = czero;
  cmul_1_r : forall x, cmul x cone = x;
  cmul_comm : forall x y, cmul x y = cmul y x;
  cmul_assoc : forall x y z, cmul x (cmul y z) = cmul (cmul x y) z;
  cmul_add_distr_r : forall x y z, cmul (cadd x y) z = cadd (cmul x z) (cmul y z);
  of_int_0 : of_int 0 = czero;
  of_int_1 : of_int 1 = cone;
  of_int_add : forall a b, of_int (a + b) = cadd (of_int a) (of_int b);
  of_int_mul : forall a b, of_int (a * b) = cmul (of_int a) (of_int b)
}.

Arguments NumericLaws C {_}.

(** Python [int]. *)
#[export] Instance Numeric_int : Numeric Z := {
  czero := 0;
  cone := 1;
  cadd := Z.add;
  cmul := Z.mul;
  of_int := fun z => z
}.

(** ** [to_base] *)

(** The [while num > 0] loop of [to_base]. *)
Fixpoint to_base_loop (fuel : nat) (num base : Z) (rep : string) : outcome string :=
  match fuel with
  | O => OutOfFuel
  | S fuel' =>
      if 0 <? num then
        if base =? 0 then Raises ZeroDivisionError
        else
          let remainder := num mod base in
          let rep := (str remainder ++ rep)%string in
          let num := num / base in
          to_base_loop fuel' num base rep
      else Returns rep
  end.

Definition to_base (fuel : nat) (num base : Z) : outcome string :=
  if num =? 0 then Returns "0"%string
  else to_base_loop fuel num base ""%string.

(** ** [from_repr] *)

Section FromRepr.
Context {C : Type} `{Numeric C}.

(** The [for index, digit in enumerate(s[::-1])] loop, with the
    accumulator [result]. *)
Fixpoint from_repr_loop (items : list (nat * ascii)) (radix : C)
         (symbols : list C) (result : C) : outcome C :=
  match items with
  | [] => Returns result
  | (index, digit) :: rest =>
      d <- int_of_char digit ;;
      sym <- getitem symbols d ;;
      from_repr_loop rest radix symbols (cadd result (cmul sym (cpow radix index)))
  end.

Definition from_repr (s : string) (radix : C) (symbols : list C) : outcome C :=
  from_repr_loop (enumerate (reversed s)) radix symbols czero.
End FromRepr.

(** ** [generate_roots_of_unity] *)

Section SymbolGenerator.
(** The values of the table: the [int] 0 and the binary64 [complex] values
    that [cmath.exp(2j * pi * k / n)] returns, for [k] and [n] given in
    this order. The call goes to the C library and may raise. *)
Variable value : Type.
Variable int_zero : value.
Variable cmath_exp_2j_pi : Z -> Z -> outcome value.

Definition generate_roots_of_unity (n : Z) : outcome (list value) :=
  if 0 <? n then
    roots <- comprehension (fun k => cmath_exp_2j_pi k n) (range2 1 (n + 1)) ;;
    Returns ([int_zero] ++ roots)
  else Returns [int_zero].
End SymbolGenerator.

(** ** The numeric part of [draw] *)

Section Draw.
Context {C : Type} `{Numeric C}.

(** Lines 91 to 101 of [draw]: the points and the normalized lengths that
    are handed to the colour map and to the plotting calls. *)
Definition draw (fuel : nat) (symbols : list C) (radix : C) (num_points : Z)
  : outcome (list C * list Q) :=
  let level := len_list symbols in
  lengths <- comprehension
               (fun i => s <- to_base fuel i level ;; Returns (len s))
               (range num_points) ;;
  max_length <- py_max lengths ;;
  complex_numbers <- comprehension
               (fun i => s <- to_base fuel i level ;; from_repr s radix symbols)
               (range num_points) ;;
  normalized_lengths <- comprehension
               (fun length => truediv length max_length) lengths ;;
  Returns (complex_numbers, normalized_lengths).
End Draw.

(** ** The specification's sum *)

Section SpecSum.
Context {C : Type} `{Numeric C}.

(** The sum of [f 0], ..., [f (n-1)], added in this order starting from
    zero. *)
Fixpoint sum_upto (n : nat) (f : nat -> C) : C :=
  match n with
  | O => czero
  | S m => cadd (sum_upto m f) (f m)
  end.

(** [digit_k]: the value of the character [k] places from the right end
    of the string. *)
Definition digit_at (s : string) (k : nat) : Z :=
  match String.get (String.length s - 1 - k) s with
  | Some c => match digit_value c with Some d => d | None => 0 end
  | None => 0
  end.

Definition symbol_at (symbols : list C) (d : Z) : C :=
  nth (Z.to_nat d) symbols czero.

(** The sum over [k = 0 .. L-1] of [S[digit_k] * r^k]. *)
Definition radix_sum (s : string) (r : C) (symbols : list C) : C :=
  sum_upto (String.length s)
           (fun k => cmul (symbol_at symbols (digit_at s k)) (cpow r k)).
End SpecSum.

(** A digit string: every character is a decimal digit. *)
Definition digit_string (s : string) : Prop :=
  Forall (fun c => digit_value c <> None) (list_ascii_of_string s).

(** Every digit of the string has an entry in a symbol table of the given
    size. *)
Definition digits_below (size : Z) (s : string) : Prop :=
  Forall (fun c => exists d, digit_value c = Some d /\ d < size)
         (list_ascii_of_string s).

(** The identity symbol table [[0, 1, ..., level-1]]. *)
Definition identity_symbols {C : Type} `{Numeric C} (level : Z) : list C :=
  map of_int (range level).

(** ** Numbers whose power may raise *)

(** What [from_repr] asks of its numbers: the [int] 0 it starts from,
    widened to the type of the symbols, [+], [*] and [pow] with an index
    that is not negative. On Python [float] and [complex], [+] and [*]
    never raise, and [pow] raises [OverflowError] when it overflows. *)
Class PyNumber (C : Type) : Type := {
  nzero : C;
  nadd : C -> C -> C;
  nmul : C -> C -> C;
  npow : C -> nat -> outcome C
}.

(** Exact numbers: [pow] returns the power. *)
#[export] Instance PyNumber_exact {C : Type} `{Numeric C} : PyNumber C := {
  nzero := czero;
  nadd := cadd;
  nmul := cmul;
  npow := fun r n => Returns (cpow r n)
}.

Module General.
Section Core.
Context {C : Type} `{PyNumber C}.

(** The loop of [from_repr]: the symbol is looked up first, then the power
    is computed, then the product is added to [result]. *)
Fixpoint from_repr_loop (items : list (nat * ascii)) (radix : C)
         (symbols : list C) (result : C) : outcome C :=
  match items with
  | [] => Returns result
  | (index, digit) :: rest =>
      d <- int_of_char digit ;;
      sym <- getitem symbols d ;;
      power <- npow radix index ;;
      from_repr_loop rest radix symbols (nadd result (nmul sym power))
  end.

Definition from_repr (s : string) (radix : C) (symbols : list C) : outcome C :=
  from_repr_loop (enumerate (reversed s)) radix symbols nzero.

(** Lines 91 to 101 of [draw]. *)
Definition draw (fuel : nat) (symbols : list C) (radix : C) (num_points : Z)
  : outcome (list C * list Q) :=
  let level := len_list symbols in
  lengths <- comprehension
               (fun i => s <- to_base fuel i level ;; Returns (len s))
               (range num_points) ;;
  max_length <- py_max lengths ;;
  complex_numbers <- comprehension
               (fun i => s <- to_base fuel i level ;; from_repr s radix symbols)
               (range num_points) ;;
  normalized_lengths <- comprehension
               (fun length => truediv length max_length) lengths ;;
  Returns (complex_numbers, normalized_lengths).

(** The specification's sum, over the powers [powers 0], [powers 1], ...
    that [pow] returned. *)
Fixpoint sum_upto (n : nat) (f : nat -> C) : C :=
  match n with
  | O => nzero
  | S m => nadd (sum_upto m f) (f m)
  end.

Definition symbol_at (symbols : list C) (d : Z) : C :=
  nth (Z.to_nat d) symbols nzero.

Definition radix_sum (s : string) (powers : nat -> C) (symbols : list C) : C :=
  sum_upto (String.length s)
           (fun k => nmul (symbol_at symbols (digit_at s k)) (powers k)).
End Core.
End General.

(** ** Python [complex] in binary64 *)

Module Binary64.
Local Open Scope float_scope.

Record complex : Type := mkC { real : float; imag : float }.

Definition c_1 : complex := mkC 1 0.

(** [_Py_c_sum], [_Py_c_prod] and [_Py_c_quot] of CPython; [None] stands
    for [errno = EDOM]. *)
Definition c_sum (a b : complex) : complex :=
  mkC (real a + real b) (imag a + imag b).

Definition c_prod (a b : complex) : complex :=
  mkC (real a * real b - imag a * imag b) (real a * imag b + imag a * real b).

Definition c_quot (a b : complex) : option complex :=
  let abs_breal := if real b <? 0 then - real b else real b in
  let abs_bimag := if imag b <? 0 then - imag b else imag b in
  if abs_bimag <=? abs_breal then
    if abs_breal =? 0 then None
    else
      let ratio := imag b / real b in
      let denom := real b + imag b * ratio in
      Some (mkC ((real a + imag a * ratio) / denom)
                ((imag a - real a * ratio) / denom))
  else if abs_breal <=? abs_bimag then
    let ratio := real b / imag b in
    let denom := real b * ratio + imag b in
    Some (mkC ((real a * ratio + imag a) / denom)
              ((imag a * ratio - real a) / denom))
  else Some (mkC nan nan).

(** [c_powu]: the bits of [n] are read from the lowest one; [r] collects
    the product and [p] is squared at every bit. *)
Fixpoint c_powu_bits (r p : complex) (n : positive) : complex :=
  match n with
  | xH => c_prod r p
  | xO q => c_powu_bits r (c_prod p p) q
  | xI q => c_powu_bits (c_prod r p) (c_prod p p) q
  end.

Definition c_powu (x : complex) (n : nat) : complex :=
  match N.of_nat n with
  | N0 => c_1
  | Npos bits => c_powu_bits c_1 x bits
  end.

(** [c_powi] for an exponent that is not negative. *)
Definition c_powi (x : complex) (n : nat) : option complex :=
  match n with
  | O => c_quot c_1 (c_powu x 0)
  | S _ => Some (c_powu x n)
  end.

(** [complex_pow] with an integer exponent [n >= 0]. For [n <= 100] the
    power is computed by [c_powi] and an infinite part gives
    [OverflowError]; for a larger exponent [_Py_c_pow] goes through the C
    library ([hypot], [pow], [atan2], [cos], [sin]): [large]. *)
Definition complex_pow (large : complex -> nat -> outcome complex)
           (x : complex) (n : nat) : outcome complex :=
  if (n <=? 100)%nat then
    match c_powi x n with
    | None => Raises ZeroDivisionError
    | Some p =>
        if is_infinity (real p) || is_infinity (imag p)
        then Raises OverflowError
        else Returns p
    end
  else large x n.

(** Python [complex] as numbers for [from_repr]; the [int] 0 that
    [result] starts from is widened to [0j] when it meets a [complex]. *)
Definition complex_number (large : complex -> nat -> outcome complex)
  : PyNumber complex := {|
  nzero := mkC 0 0;
  nadd := c_sum;
  nmul := c_prod;
  npow := complex_pow large
|}.

End Binary64.

(** ** Auxiliary definitions for the proofs *)

(** The string that the loop of [to_base] puts in front of [rep]: the
    numerals of the remainders, the last remainder first. *)
Fixpoint loop_string (fuel : nat) (num base : Z) : string :=
  match fuel with
  | O => ""
  | S fuel' =>
      if 0 <? num
      then (loop_string fuel' (num / base) base ++ str (num mod base))%string
      else ""
  end.

(** A character that is a decimal digit. *)
Definition decimal_char (c : ascii) : Prop :=
  exists d, digit_value c = Some d /\ 0 <= d <= 9.

(** The string returned by [to_base] when its loop ends within the fuel. *)
Definition digits (fuel : nat) (num base : Z) : string :=
  if num =? 0 then "0"%string else loop_string fuel num base.

Section Terms.
Context {C : Type} `{Numeric C}.

(** The digit read at offset [k] from the right end. *)
Definition digit_in (l : list ascii) (k : nat) : Z :=
  match nth_error l k with
  | Some c => match digit_value c with Some d => d | None => 0 end
  | None => 0
  end.

Definition term_in (l : list ascii) (r : C) (symbols : list C) (k : nat) : C :=
  cmul (symbol_at symbols (digit_in l k)) (cpow r k).

End Terms.


(** * Proofs *)

(** ** Outcomes *)

Lemma comprehension_returns {A B : Type} (f : A -> outcome B) (g : A -> B) xs :
  (forall x, In x xs -> f x = Returns (g x)) ->
  comprehension f xs = Returns (map g xs).
Proof.
  induction xs as [|x xs IH]; intros Hf; simpl; [reflexivity|].
  rewrite (Hf x (or_introl eq_refl)). simpl.
  rewrite IH by (intros y Hy; apply Hf; right; exact Hy).
  reflexivity.
Qed.

Lemma comprehension_total {A B : Type} (f : A -> outcome B) xs :
  (forall x, In x xs -> exists y, f x = Returns y) ->
  exists ys, comprehension f xs = Returns ys /\ List.length ys = List.length xs.
Proof.
  induction xs as [|x xs IH]; intros Hf; simpl.
  - exists []. split; reflexivity.
  - destruct (Hf x (or_introl eq_refl)) as [y Hy].
    destruct IH as [ys [Hys Hlen]]; [intros z Hz; apply Hf; right; exact Hz|].
    exists (y :: ys). rewrite Hy, Hys. simpl. split; [reflexivity | now rewrite Hlen].
Qed.

(** ** Strings and numerals *)

Lemma list_ascii_of_string_app (s t : string) :
  list_ascii_of_string (s ++ t) = list_ascii_of_string s ++ list_ascii_of_string t.
Proof. induction s as [|c s IH]; simpl; [reflexivity | now rewrite IH]. Qed.

Lemma length_list_ascii (s : string) :
  List.length (list_ascii_of_string s) = String.length s.
Proof. induction s as [|c s IH]; simpl; [reflexivity | now rewrite IH]. Qed.

Lemma string_length_app (s t : string) :
  String.length (s ++ t) = (String.length s + String.length t)%nat.
Proof. induction s as [|c s IH]; simpl; [reflexivity | now rewrite IH]. Qed.

Lemma string_app_assoc (s t u : string) :
  ((s ++ t) ++ u = s ++ (t ++ u))%string.
Proof. induction s as [|c s IH]; simpl; [reflexivity | now rewrite IH]. Qed.

Lemma string_app_empty_r (s : string) : (s ++ "")%string = s.
Proof. induction s as [|c s IH]; simpl; [reflexivity | now rewrite IH]. Qed.

Lemma digit_value_range c d : digit_value c = Some d -> 0 <= d <= 9.
Proof.
  unfold digit_value. destruct (_ && _) eqn:E; [|discriminate].
  intros [= <-]. apply andb_true_iff in E. lia.
Qed.

Lemma decimal_char_intro c : digit_value c <> None -> decimal_char c.
Proof.
  intros Hc. destruct (digit_value c) as [d|] eqn:E; [|congruence].
  exists d. split; [exact E | eapply digit_value_range; exact E].
Qed.

Lemma uint_chars (d : Decimal.uint) :
  Forall decimal_char (list_ascii_of_string (NilEmpty.string_of_uint d)).
Proof.
  induction d; simpl; constructor; try assumption;
    apply decimal_char_intro; vm_compute; discriminate.
Qed.

Lemma uint_nonempty (d : Decimal.uint) :
  (1 <= String.length (NilZero.string_of_uint d))%nat.
Proof. destruct d; simpl; lia. Qed.

(** The numeral of a non-negative integer consists of decimal digits. *)
Lemma str_chars (r : Z) :
  0 <= r -> Forall decimal_char (list_ascii_of_string (str r)).
Proof.
  intros Hr. unfold str. destruct r as [|p|p]; [| |lia].
  - simpl. constructor; [|constructor].
    apply decimal_char_intro; vm_compute; discriminate.
  - simpl. unfold NilZero.string_of_uint.
    destruct (Pos.to_uint p) eqn:E; try (rewrite <- E; apply uint_chars).
    simpl. constructor; [|constructor].
    apply decimal_char_intro; vm_compute; discriminate.
Qed.

(** A numeral is never the empty string. *)
Lemma str_nonempty (r : Z) : (1 <= String.length (str r))%nat.
Proof.
  unfold str. destruct r as [|p|p]; simpl; [lia | apply uint_nonempty | lia].
Qed.

(** Below ten, the numeral is one character, whose value is the number. *)
Lemma str_small (r : Z) :
  0 <= r < 10 -> exists c, str r = String c "" /\ digit_value c = Some r.
Proof.
  intros Hr.
  assert (E : r = 0 \/ r = 1 \/ r = 2 \/ r = 3 \/ r = 4 \/ r = 5 \/ r = 6
              \/ r = 7 \/ r = 8 \/ r = 9) by lia.
  repeat (destruct E as [-> | E]); try subst r;
    eexists; split; reflexivity.
Qed.

(** Each character of the numeral of [r], with [0 <= r < base] and
    [2 <= base], is a digit with an entry in a table of [base] symbols. *)
Lemma str_digits_below (base r : Z) :
  2 <= base -> 0 <= r < base ->
  Forall (fun c => exists d, digit_value c = Some d /\ d < base)
         (list_ascii_of_string (str r)).
Proof.
  intros Hb Hr. destruct (Z_lt_le_dec r 10) as [Hs | Hl].
  - destruct (str_small (r := r)) as [c [-> Hc]]; [lia|].
    simpl. constructor; [|constructor]. exists r. split; [exact Hc | lia].
  - eapply Forall_impl; [|apply str_chars; lia].
    intros c [d [Hd Hrange]]. exists d. split; [exact Hd | lia].
Qed.

(** ** The loop of [to_base] *)

Lemma quotient_fuel (fuel : nat) (num base : Z) :
  2 <= base -> 0 < num -> (Z.to_nat num < S fuel)%nat ->
  0 <= num / base /\ (Z.to_nat (num / base) < fuel)%nat.
Proof.
  intros Hb Hn Hf.
  assert (0 <= num / base) by (apply Z.div_pos; lia).
  assert (num / base < num) by (apply Z.div_lt; lia).
  split; [assumption | lia].
Qed.

(** With a base of at least two the loop ends: [num] decreases at every
    turn, so fuel above [num] is enough. *)
Lemma to_base_loop_returns (fuel : nat) :
  forall num base rep,
    2 <= base -> (Z.to_nat num < fuel)%nat ->
    to_base_loop fuel num base rep
    = Returns (loop_string fuel num base ++ rep)%string.
Proof.
  induction fuel as [|fuel IH]; intros num base rep Hb Hf; [lia|].
  simpl. destruct (0 <? num) eqn:Hpos; [|reflexivity].
  apply Z.ltb_lt in Hpos.
  replace (base =? 0) with false by (symmetry; apply Z.eqb_neq; lia).
  destruct (quotient_fuel (fuel := fuel) (num := num) (base := base))
    as [_ Hq]; try assumption.
  rewrite IH by assumption.
  now rewrite string_app_assoc.
Qed.

Lemma to_base_returns (fuel : nat) (num base : Z) :
  2 <= base -> 0 <= num -> (Z.to_nat num < fuel)%nat ->
  to_base fuel num base = Returns (digits fuel num base).
Proof.
  intros Hb Hn Hf. unfold to_base, digits.
  destruct (num =? 0); [reflexivity|].
  rewrite to_base_loop_returns by assumption.
  now rewrite string_app_empty_r.
Qed.

(** More fuel does not change a result. *)
Lemma to_base_loop_fuel_mono (fuel : nat) :
  forall fuel' num base rep s,
    (fuel <= fuel')%nat ->
    to_base_loop fuel num base rep = Returns s ->
    to_base_loop fuel' num base rep = Returns s.
Proof.
  induction fuel as [|fuel IH]; intros fuel' num base rep s Hle Hs;
    [discriminate|].
  destruct fuel' as [|fuel']; [lia|].
  simpl in *. destruct (0 <? num); [|exact Hs].
  destruct (base =? 0); [discriminate|].
  apply IH; [lia | exact Hs].
Qed.

(** With base one the loop never ends on a positive number. *)
Lemma to_base_loop_base_one (fuel : nat) :
  forall num rep, 0 < num -> to_base_loop fuel num 1 rep = OutOfFuel.
Proof.
  induction fuel as [|fuel IH]; intros num rep Hn; [reflexivity|].
  simpl. replace (0 <? num) with true by (symmetry; apply Z.ltb_lt; lia).
  rewrite Z.div_1_r. apply IH. exact Hn.
Qed.

(** Every character of the produced string is a digit below the base. *)
Lemma loop_string_digits_below (fuel : nat) :
  forall num base, 2 <= base -> digits_below base (loop_string fuel num base).
Proof.
  unfold digits_below.
  induction fuel as [|fuel IH]; intros num base Hb; simpl; [constructor|].
  destruct (0 <? num); [|constructor].
  rewrite list_ascii_of_string_app. apply Forall_app. split.
  - apply IH. exact Hb.
  - apply str_digits_below; [exact Hb|]. apply Z.mod_pos_bound. lia.
Qed.

Lemma digits_digits_below (fuel : nat) (num base : Z) :
  2 <= base -> digits_below base (digits fuel num base).
Proof.
  intros Hb. unfold digits. destruct (num =? 0).
  - unfold digits_below. simpl. constructor; [|constructor].
    exists 0. split; [reflexivity | lia].
  - apply loop_string_digits_below. exact Hb.
Qed.

(** The produced string is never empty. *)
Lemma digits_nonempty (fuel : nat) (num base : Z) :
  0 <= num -> (Z.to_nat num < fuel)%nat -> 1 <= len (digits fuel num base).
Proof.
  intros Hn Hf. unfold digits, len.
  destruct (num =? 0) eqn:E; [simpl; lia|].
  apply Z.eqb_neq in E. destruct fuel as [|fuel]; [lia|].
  simpl. replace (0 <? num) with true by (symmetry; apply Z.ltb_lt; lia).
  rewrite string_length_app.
  pose proof (str_nonempty (num mod base)). lia.
Qed.

(** ** Length of the digit string, for bases up to ten *)

Lemma loop_string_zero (fuel : nat) (base : Z) : loop_string fuel 0 base = ""%string.
Proof. destruct fuel; reflexivity. Qed.

Lemma loop_string_step (fuel : nat) (num base : Z) :
  0 < num ->
  loop_string (S fuel) num base
  = (loop_string fuel (num / base) base ++ str (num mod base))%string.
Proof.
  intros Hn. simpl.
  now replace (0 <? num) with true by (symmetry; apply Z.ltb_lt; lia).
Qed.

Lemma loop_string_length_bounds (fuel : nat) :
  forall num base,
    2 <= base <= 10 -> 1 <= num -> (Z.to_nat num < fuel)%nat ->
    base ^ (len (loop_string fuel num base) - 1) <= num
    < base ^ len (loop_string fuel num base).
Proof.
  induction fuel as [|fuel IH]; intros num base Hb Hn Hf; [lia|].
  rewrite loop_string_step by lia.
  destruct (quotient_fuel (fuel := fuel) (num := num) (base := base))
    as [Hq0 Hqf]; try lia.
  pose proof (Z.div_mod num base ltac:(lia)) as Hdm.
  pose proof (Z.mod_pos_bound num base ltac:(lia)) as Hr.
  destruct (str_small (r := num mod base)) as [c [-> _]]; [lia|].
  unfold len in *. rewrite string_length_app. simpl String.length.
  destruct (Z.eq_dec (num / base) 0) as [E | E].
  - rewrite E, loop_string_zero. simpl String.length.
    change (Z.of_nat (0 + 1) - 1) with 0. change (Z.of_nat (0 + 1)) with 1.
    rewrite Z.pow_0_r, Z.pow_1_r. rewrite E in Hdm. lia.
  - specialize (IH (num / base) base Hb ltac:(lia) Hqf).
    set (L := Z.of_nat (String.length (loop_string fuel (num / base) base))) in *.
    assert (HL : 1 <= L).
    { destruct (Z_lt_le_dec L 1) as [Hlt | Hge]; [|exact Hge].
      assert (L = 0) by lia. rewrite H in IH. rewrite Z.pow_0_r in IH. lia. }
    replace (Z.of_nat (String.length (loop_string fuel (num / base) base) + 1))
      with (Z.succ L) by (subst L; lia).
    assert (P1 : base ^ Z.succ L = base * base ^ L)
      by (apply Z.pow_succ_r; lia).
    assert (P2 : base ^ L = base * base ^ (L - 1)).
    { replace L with (Z.succ (L - 1)) at 1 by lia. apply Z.pow_succ_r. lia. }
    replace (Z.succ L - 1) with L by lia.
    rewrite P1. rewrite P2 in *.
    nia.
Qed.

(** Between two consecutive powers of the base there is one exponent. *)
Lemma power_interval_unique (base num j k : Z) :
  2 <= base -> 1 <= j -> 1 <= k ->
  base ^ (j - 1) <= num < base ^ j ->
  base ^ (k - 1) <= num < base ^ k ->
  j = k.
Proof.
  intros Hb Hj Hk Bj Bk.
  destruct (Z.lt_trichotomy j k) as [Hlt | [Heq | Hgt]]; [|exact Heq|].
  - assert (base ^ j <= base ^ (k - 1)) by (apply Z.pow_le_mono_r; lia). lia.
  - assert (base ^ k <= base ^ (j - 1)) by (apply Z.pow_le_mono_r; lia). lia.
Qed.

(** ** Indexing *)

Lemma getitem_found {A : Type} (l : list A) (d : Z) (x : A) :
  0 <= d -> nth_error l (Z.to_nat d) = Some x -> getitem l d = Returns x.
Proof.
  intros Hd Hx. unfold getitem.
  replace (d <? 0) with false by (symmetry; apply Z.ltb_ge; lia).
  replace (d <? 0) with false by (symmetry; apply Z.ltb_ge; lia).
  now rewrite Hx.
Qed.

Lemma getitem_below {A : Type} (l : list A) (d : Z) (default : A) :
  0 <= d < len_list l -> getitem l d = Returns (nth (Z.to_nat d) l default).
Proof.
  intros Hd. apply getitem_found; [lia|].
  apply nth_error_nth'. unfold len_list in Hd. lia.
Qed.

Lemma getitem_beyond {A : Type} (l : list A) (d : Z) :
  0 <= d -> len_list l <= d -> getitem l d = Raises IndexError.
Proof.
  intros Hd Hl. unfold getitem.
  replace (d <? 0) with false by (symmetry; apply Z.ltb_ge; lia).
  replace (d <? 0) with false by (symmetry; apply Z.ltb_ge; lia).
  replace (nth_error l (Z.to_nat d)) with (@None A); [reflexivity|].
  symmetry. apply nth_error_None. unfold len_list in Hl. lia.
Qed.

Lemma nth_error_range2 (a b j : Z) :
  0 <= j < b - a -> nth_error (range2 a b) (Z.to_nat j) = Some (a + j).
Proof.
  intros Hj. unfold range2.
  rewrite nth_error_map.
  rewrite (nth_error_nth' _ 0%nat) by (rewrite length_seq; lia).
  rewrite seq_nth by lia. simpl. f_equal. lia.
Qed.

Lemma length_range2 (a b : Z) : List.length (range2 a b) = Z.to_nat (b - a).
Proof. unfold range2. now rewrite length_map, length_seq. Qed.

Lemma in_range (n i : Z) : In i (range n) -> 0 <= i < n.
Proof.
  unfold range, range2. rewrite in_map_iff.
  intros [k [<- Hk]]. apply in_seq in Hk. lia.
Qed.

(** ** [from_repr] *)

Section FromReprFacts.
Context {C : Type} `{Numeric C}.

Lemma sum_upto_ext (n : nat) (f g : nat -> C) :
  (forall k, (k < n)%nat -> f k = g k) -> sum_upto n f = sum_upto n g.
Proof.
  induction n as [|n IH]; intros Hfg; simpl; [reflexivity|].
  rewrite IH by (intros k Hk; apply Hfg; lia).
  now rewrite Hfg by lia.
Qed.

(** The loop adds the terms of the sum one by one, in order. *)
Lemma from_repr_loop_sum (r : C) (symbols : list C) (l2 : list ascii) :
  forall l1,
    Forall (fun c => exists d, digit_value c = Some d /\ d < len_list symbols) l2 ->
    from_repr_loop (enumerate_from (List.length l1) l2) r symbols
                   (sum_upto (List.length l1) (term_in (l1 ++ l2) r symbols))
    = Returns (sum_upto (List.length (l1 ++ l2)) (term_in (l1 ++ l2) r symbols)).
Proof.
  induction l2 as [|c l2 IH]; intros l1 Hl2.
  - simpl. now rewrite app_nil_r.
  - inversion Hl2 as [|c' l' [d [Hd Hlt]] Hrest]; subst.
    simpl. unfold int_of_char. rewrite Hd. simpl.
    pose proof (digit_value_range c Hd) as Hrange.
    rewrite (getitem_below symbols (d := d) czero) by lia. simpl.
    specialize (IH (l1 ++ [c]) Hrest).
    rewrite <- app_assoc in IH. simpl in IH.
    rewrite length_app in IH. simpl in IH.
    rewrite Nat.add_1_r in IH. simpl in IH.
    rewrite <- IH. f_equal. f_equal.
    unfold term_in, digit_in, symbol_at.
    rewrite nth_error_app2 by lia. rewrite Nat.sub_diag. simpl.
    now rewrite Hd.
Qed.

Lemma get_reversed (s : string) (k : nat) :
  (k < String.length s)%nat ->
  String.get (String.length s - 1 - k) s = nth_error (reversed s) k.
Proof.
  intros Hk. unfold reversed.
  rewrite nth_error_rev. rewrite length_list_ascii.
  replace (k <? String.length s)%nat with true
    by (symmetry; apply Nat.ltb_lt; exact Hk).
  replace (String.length s - S k)%nat with (String.length s - 1 - k)%nat by lia.
  generalize (String.length s - 1 - k)%nat as n. clear Hk k.
  induction s as [|c s IH]; intros [|n]; simpl; try reflexivity. apply IH.
Qed.

Lemma radix_sum_reversed (s : string) (r : C) (symbols : list C) :
  radix_sum s r symbols
  = sum_upto (String.length s) (term_in (reversed s) r symbols).
Proof.
  unfold radix_sum. apply sum_upto_ext. intros k Hk.
  unfold term_in, digit_in, digit_at. now rewrite get_reversed.
Qed.

Lemma digits_below_reversed (size : Z) (s : string) :
  digits_below size s ->
  Forall (fun c => exists d, digit_value c = Some d /\ d < size) (reversed s).
Proof. intros Hs. unfold reversed. apply Forall_rev. exact Hs. Qed.

Lemma from_repr_sum (s : string) (r : C) (symbols : list C) :
  digits_below (len_list symbols) s ->
  from_repr s r symbols = Returns (radix_sum s r symbols).
Proof.
  intros Hs. rewrite radix_sum_reversed. unfold from_repr, enumerate.
  pose proof (@from_repr_loop_sum r symbols (reversed s) [] (digits_below_reversed Hs)) as E.
  simpl in E. rewrite E. f_equal. f_equal.
  unfold reversed. now rewrite length_rev, length_list_ascii.
Qed.

(** A digit without an entry in the symbol table ends the loop with
    [IndexError]. *)
Lemma from_repr_loop_index_error (r : C) (symbols : list C) (l : list ascii) :
  forall i acc,
    Forall decimal_char l ->
    Exists (fun c => exists d, digit_value c = Some d /\ len_list symbols <= d) l ->
    from_repr_loop (enumerate_from i l) r symbols acc = Raises IndexError.
Proof.
  induction l as [|c l IH]; intros i acc Hall Hex; [inversion Hex|].
  inversion Hall as [|c' l' [d [Hd Hrange]] Hrest]; subst.
  simpl. unfold int_of_char. rewrite Hd. simpl.
  destruct (Z_lt_le_dec d (len_list symbols)) as [Hlt | Hge].
  - rewrite (getitem_below symbols (d := d) czero) by lia. simpl.
    apply IH; [exact Hrest|].
    inversion Hex as [c' l' [d' [Hd' Hbad]] | c' l' Hex']; subst;
      [|exact Hex'].
    rewrite Hd in Hd'. injection Hd' as <-. lia.
  - rewrite getitem_beyond by lia. reflexivity.
Qed.
End FromReprFacts.

(** ** Evaluation in exact arithmetic *)

Section Lawful.
Context {C : Type} `{NumericLaws C}.

Lemma cadd_0_r (x : C) : cadd x czero = x.
Proof. rewrite cadd_comm. apply cadd_0_l. Qed.

Lemma horner_step (acc b q r p : C) :
  cadd (cadd acc (cmul r p)) (cmul q (cmul b p))
  = cadd acc (cmul (cadd (cmul b q) r) p).
Proof.
  rewrite cmul_add_distr_r.
  rewrite (cadd_comm (cmul (cmul b q) p)).
  rewrite cadd_assoc. f_equal.
  rewrite (cmul_comm b q). now rewrite cmul_assoc.
Qed.

Lemma getitem_identity (level d : Z) :
  0 <= d < level -> getitem (identity_symbols level) d = Returns (of_int d).
Proof.
  intros Hd. apply getitem_found; [lia|].
  unfold identity_symbols, range. rewrite nth_error_map.
  rewrite nth_error_range2 by lia. reflexivity.
Qed.

(** Read back in the radix [base] over the table [[0, ..., base-1]], the
    string produced by the loop is worth [num] at its position. *)
Lemma from_repr_loop_loop_string (fuel : nat) :
  forall num base i acc,
    2 <= base <= 10 -> 0 <= num -> (Z.to_nat num < fuel)%nat ->
    from_repr_loop
      (enumerate_from i (rev (list_ascii_of_string (loop_string fuel num base))))
      (of_int base) (identity_symbols base) acc
    = Returns (cadd acc (cmul (of_int num) (cpow (of_int base) i))).
Proof.
  induction fuel as [|fuel IH]; intros num base i acc Hb Hn Hf; [lia|].
  destruct (Z.eq_dec num 0) as [-> | Hnz].
  - rewrite loop_string_zero. simpl.
    now rewrite of_int_0, cmul_0_l, cadd_0_r.
  - rewrite loop_string_step by lia.
    destruct (quotient_fuel (fuel := fuel) (num := num) (base := base))
      as [Hq0 Hqf]; try lia.
    pose proof (Z.mod_pos_bound num base ltac:(lia)) as Hr.
    destruct (str_small (r := num mod base)) as [c [-> Hc]]; [lia|].
    rewrite list_ascii_of_string_app, rev_app_distr. simpl.
    unfold int_of_char. rewrite Hc. simpl.
    rewrite getitem_identity by lia. simpl.
    rewrite IH by (try assumption; lia). f_equal.
    simpl. rewrite horner_step.
    rewrite <- of_int_mul, <- of_int_add.
    now rewrite <- Z.div_mod by lia.
Qed.

Lemma from_repr_digits (fuel : nat) (num base : Z) :
  2 <= base <= 10 -> 0 <= num -> (Z.to_nat num < fuel)%nat ->
  from_repr (digits fuel num base) (of_int base) (identity_symbols base)
  = Returns (of_int num).
Proof.
  intros Hb Hn Hf. unfold digits. destruct (num =? 0) eqn:E.
  - apply Z.eqb_eq in E. subst num.
    unfold from_repr, enumerate, reversed. simpl.
    change (int_of_char "0") with (Returns 0). simpl.
    rewrite getitem_identity by lia. simpl.
    now rewrite cmul_1_r, cadd_0_l.
  - unfold from_repr, enumerate, reversed.
    rewrite from_repr_loop_loop_string by assumption. simpl.
    now rewrite cmul_1_r, cadd_0_l.
Qed.

Lemma from_repr_single (c : ascii) (d : Z) (r : C) (symbols : list C) :
  digit_value c = Some d -> d < len_list symbols ->
  from_repr (String c "") r symbols = Returns (symbol_at symbols d).
Proof.
  intros Hc Hd. pose proof (digit_value_range c Hc) as Hrange.
  unfold from_repr, enumerate, reversed. simpl.
  unfold int_of_char. rewrite Hc. simpl.
  rewrite (getitem_below symbols (d := d) czero) by lia. simpl.
  now rewrite cmul_1_r, cadd_0_l.
Qed.
End Lawful.

(** ** Python [int] satisfies the laws *)

#[export] Instance NumericLaws_int : NumericLaws Z.
Proof. constructor; intros; simpl; lia. Qed.


(** ** Maximum and normalization *)

Lemma fold_max_spec (l : list Z) :
  forall x,
    x <= fold_left Z.max l x
    /\ Forall (fun y => y <= fold_left Z.max l x) l
    /\ In (fold_left Z.max l x) (x :: l).
Proof.
  induction l as [|y l IH]; intros x; simpl.
  - repeat split; [lia | constructor | left; reflexivity].
  - destruct (IH (Z.max x y)) as [Hge [Hall Hin]].
    repeat split; [lia | constructor; [lia | exact Hall] |].
    destruct Hin as [Hin | Hin]; [|right; right; exact Hin].
    destruct (Z.max_spec x y) as [[_ E] | [_ E]];
      rewrite E in Hin |- *; [right; left | left]; exact Hin.
Qed.

Lemma py_max_spec (l : list Z) :
  l <> [] ->
  exists m, py_max l = Returns m /\ In m l /\ Forall (fun y => y <= m) l.
Proof.
  destruct l as [|x l]; [congruence|]. intros _.
  destruct (fold_max_spec l x) as [Hge [Hall Hin]].
  exists (fold_left Z.max l x). simpl.
  repeat split; [exact Hin | constructor; assumption].
Qed.

Lemma truediv_returns (a m : Z) :
  m <> 0 -> truediv a m = Returns (inject_Z a / inject_Z m)%Q.
Proof.
  intros Hm. unfold truediv.
  now replace (m =? 0) with false by (symmetry; apply Z.eqb_neq; exact Hm).
Qed.



Lemma range_nonempty (n : Z) : 1 <= n -> range n <> [].
Proof.
  intros Hn E. apply (f_equal (@List.length Z)) in E.
  unfold range in E. rewrite length_range2 in E. simpl in E. lia.
Qed.

Lemma length_range (n : Z) : List.length (range n) = Z.to_nat n.
Proof. unfold range. rewrite length_range2. f_equal. lia. Qed.


(** ** The general embedding *)

Lemma comprehension_ext {A B : Type} (f g : A -> outcome B) (xs : list A) :
  (forall x, In x xs -> f x = g x) -> comprehension f xs = comprehension g xs.
Proof.
  induction xs as [|x xs IH]; intros Hfg; simpl; [reflexivity|].
  rewrite (Hfg x (or_introl eq_refl)).
  now rewrite IH by (intros y Hy; apply Hfg; right; exact Hy).
Qed.

Section Exact.
Context {C : Type} `{Numeric C}.

(** On exact numbers the general embedding is the exact one: [pow]
    returns, and the two loops have the same body. *)
Lemma from_repr_loop_exact (items : list (nat * ascii))
      (radix : C) (symbols : list C) (result : C) :
  General.from_repr_loop items radix symbols result
  = from_repr_loop items radix symbols result.
Proof. reflexivity. Qed.

Lemma from_repr_exact (s : string) (radix : C) (symbols : list C) :
  General.from_repr s radix symbols = from_repr s radix symbols.
Proof. reflexivity. Qed.

Lemma draw_exact (fuel : nat) (symbols : list C) (radix : C) (N : Z) :
  General.draw fuel symbols radix N = draw fuel symbols radix N.
Proof. reflexivity. Qed.
End Exact.

Section GeneralFacts.
Context {C : Type} `{PyNumber C}.






End GeneralFacts.

(** Scenario A of the specification. *)
Example scenario_A_digits : to_base 4 5 2 = Returns "101"%string.
Proof. reflexivity. Qed.

Example scenario_A_value : from_repr "101" 2 [0; 1] = Returns 5.
Proof. reflexivity. Qed.

(** * The properties of the specification *)

(** ** [to_base] *)

(** C8. For every level, so in particular for every level of at least two,
    [to_base(0, level)] returns the string "0", whose length is 1; the
    result does not depend on the level, nor on the fuel, since the loop is
    not entered. *)
Theorem to_base_zero (fuel : nat) (level : Z) :
  to_base fuel 0 level = Returns "0"%string
  /\ len "0" = 1
  /\ forall fuel' level', to_base fuel' 0 level' = to_base fuel 0 level.
Proof. repeat split. Qed.

(** C3, as stated, fails: with [num = 0] and base 1 the call returns "0"
    and does not end in an error condition. *)
Lemma to_base_zero_base_one_returns :
  to_base 1 0 1 = Returns "0"%string /\ ~ fails (to_base 1 0 1).
Proof.
  split; [reflexivity|]. intros [e He]. discriminate He.
Qed.

(** C3, amended. For [num = 0], [to_base] returns "0" for every base,
    bases 0 and 1 included, without an error; for every positive [num] and
    base 0 the first turn of the loop ends the call with
    [ZeroDivisionError], so it fails without looping. *)
Theorem to_base_degenerate_bases (fuel : nat) (base : Z) (p : positive) :
  to_base fuel 0 base = Returns "0"%string
  /\ to_base (S fuel) (Z.pos p) 0 = Raises ZeroDivisionError.
Proof. split; reflexivity. Qed.

(** X2. With base 1 and a positive number, no amount of fuel lets the
    loop end: the call never returns. *)
Lemma to_base_base_one_diverges (fuel : nat) (num : Z) :
  0 < num -> to_base fuel num 1 = OutOfFuel.
Proof.
  intros Hn. unfold to_base.
  replace (num =? 0) with false by (symmetry; apply Z.eqb_neq; lia).
  apply to_base_loop_base_one. exact Hn.
Qed.

(** C5, as stated, fails for a level above ten: the remainder 10 is
    written with two characters, so 10 in base 11 has length 2 although
    [11^0 <= 10 < 11^1]. *)
Lemma digit_string_length_base_eleven :
  exists s, to_base 2 10 11 = Returns s
            /\ 11 ^ (1 - 1) <= 10 < 11 ^ 1
            /\ len s <> 1.
Proof.
  exists "10"%string. split; [reflexivity|]. split; [|discriminate].
  split; [apply Z.leb_le | apply Z.ltb_lt]; reflexivity.
Qed.

(** C5, amended. For every level from 2 to 10 and every [k >= 1], the
    length of [to_base(num, level)] is [k] exactly when
    [level^(k-1) <= num < level^k], for [num >= 1]; for [num = 0] the
    length is 1. Fuel above [num] lets the loop end. *)
Theorem digit_string_length (fuel : nat) (num level k : Z) :
  2 <= level <= 10 -> 1 <= k -> 0 <= num -> (Z.to_nat num < fuel)%nat ->
  exists s, to_base fuel num level = Returns s
            /\ (num = 0 -> len s = 1)
            /\ (1 <= num -> (len s = k <-> level ^ (k - 1) <= num < level ^ k)).
Proof.
  intros Hl Hk Hn Hf. exists (digits fuel num level).
  split; [apply to_base_returns; lia|]. split.
  - intros ->. reflexivity.
  - intros Hpos. unfold digits.
    replace (num =? 0) with false by (symmetry; apply Z.eqb_neq; lia).
    pose proof (@loop_string_length_bounds fuel num level Hl Hpos Hf) as B.
    assert (HL : 1 <= len (loop_string fuel num level)).
    { pose proof (@digits_nonempty fuel num level Hn Hf) as D.
      unfold digits in D.
      now replace (num =? 0) with false in D
        by (symmetry; apply Z.eqb_neq; lia). }
    split.
    + intros <-. exact B.
    + intros Bk. eapply power_interval_unique; eauto; lia.
Qed.

Lemma digit_string_length_witness :
  2 <= 2 <= 10 /\ 1 <= 3 /\ 0 <= 5 /\ (Z.to_nat 5 < 6)%nat
  /\ exists s, to_base 6 5 2 = Returns s
               /\ (5 = 0 -> len s = 1)
               /\ (1 <= 5 -> (len s = 3 <-> 2 ^ (3 - 1) <= 5 < 2 ^ 3)).
Proof.
  assert (H1 : 2 <= 2 <= 10) by lia.
  assert (H2 : 1 <= 3) by lia.
  assert (H3 : 0 <= 5) by lia.
  assert (H4 : (Z.to_nat 5 < 6)%nat) by (simpl; lia).
  repeat (split; [assumption|]).
  exact (@digit_string_length 6 5 2 3 H1 H2 H3 H4).
Defined.

(** ** [from_repr] *)

(** C10. Applied to the empty digit string, [from_repr] returns exactly
    zero, for every radix and every symbol table, the empty table
    included: the loop body, the only place where the table is read, is not
    run. *)
Theorem from_repr_empty {C : Type} `{Numeric C} (radix : C) (symbols : list C) :
  from_repr "" radix symbols = Returns czero
  /\ from_repr "" radix [] = Returns czero.
Proof. split; reflexivity. Qed.







(** C1, as stated, fails for a level above ten: in base 11 the number 10
    is written "10", which reads back as 11. *)
Lemma round_trip_base_eleven :
  to_base 2 10 11 = Returns "10"%string
  /\ from_repr "10" 11 (identity_symbols 11) = Returns 11
  /\ (s <- to_base 2 10 11 ;; from_repr s 11 (identity_symbols 11))
     <> Returns 10.
Proof.
  split; [reflexivity|]. split; [reflexivity|]. discriminate.
Qed.

(** C1, amended. For every level from 2 to 10, the symbol table
    [[0, 1, ..., level-1]] and every [num >= 0], reading the digit string
    of [num] back in the radix [level] gives [num]. Fuel above [num] lets
    the loop of [to_base] end. *)
Theorem round_trip {C : Type} `{NumericLaws C} (fuel : nat) (num level : Z) :
  2 <= level <= 10 -> 0 <= num -> (Z.to_nat num < fuel)%nat ->
  exists s, to_base fuel num level = Returns s
            /\ from_repr s (of_int level) (identity_symbols level)
               = Returns (of_int num).
Proof.
  intros Hl Hn Hf. exists (digits fuel num level). split.
  - apply to_base_returns; lia.
  - apply from_repr_digits; assumption.
Qed.

Lemma round_trip_witness :
  2 <= 2 <= 10 /\ 0 <= 5 /\ (Z.to_nat 5 < 6)%nat
  /\ exists s, to_base 6 5 2 = Returns s
               /\ from_repr s 2 (identity_symbols 2) = Returns 5.
Proof.
  assert (H1 : 2 <= 2 <= 10) by lia.
  assert (H2 : 0 <= 5) by lia.
  assert (H3 : (Z.to_nat 5 < 6)%nat) by (simpl; lia).
  repeat (split; [assumption|]).
  exact (@round_trip Z Numeric_int NumericLaws_int 6 5 2 H1 H2 H3).
Defined.

(** ** [generate_roots_of_unity] *)

Module SymbolGeneration.

(** C4, as stated, fails: for [n = 0] the call returns the table [[0]]
    and does not end in an error condition. [cmath.exp] is not called. *)
Lemma generate_roots_of_unity_zero_returns :
  generate_roots_of_unity 0 (fun _ _ => Raises ValueError) 0 = Returns [0]
  /\ ~ fails (generate_roots_of_unity 0 (fun _ _ => Raises ValueError) 0).
Proof.
  split; [reflexivity|]. intros [e He]. discriminate He.
Qed.

(** C4, amended. For every integer [n < 1], [generate_roots_of_unity(n)]
    returns the one-element table [[0]] and does not fail, whatever
    [cmath.exp] would do. *)
Theorem generate_roots_of_unity_default
        (value : Type) (int_zero : value)
        (cmath_exp_2j_pi : Z -> Z -> outcome value) (n : Z) :
  n < 1 ->
  generate_roots_of_unity int_zero cmath_exp_2j_pi n = Returns [int_zero]
  /\ ~ fails (generate_roots_of_unity int_zero cmath_exp_2j_pi n).
Proof.
  intros Hn. unfold generate_roots_of_unity.
  replace (0 <? n) with false by (symmetry; apply Z.ltb_ge; lia).
  split; [reflexivity|]. intros [e He]. discriminate He.
Qed.

Lemma generate_roots_of_unity_default_witness :
  -3 < 1
  /\ generate_roots_of_unity 0 (fun _ _ => Raises ValueError) (-3)
     = Returns [0]
  /\ ~ fails (generate_roots_of_unity 0 (fun _ _ => Raises ValueError) (-3)).
Proof.
  assert (Hn : -3 < 1) by lia.
  split; [exact Hn|].
  exact (@generate_roots_of_unity_default Z 0 (fun _ _ => Raises ValueError)
           (-3) Hn).
Defined.
End SymbolGeneration.

(** ** [draw] *)

Lemma comprehension_length {A B : Type} (f : A -> outcome B) (xs : list A) :
  forall ys, comprehension f xs = Returns ys -> List.length ys = List.length xs.
Proof.
  induction xs as [|x xs IH]; intros ys E; simpl in E.
  - now injection E as <-.
  - destruct (f x) as [y| |]; simpl in E; try discriminate E.
    destruct (comprehension f xs) as [ys'| |]; simpl in E; try discriminate E.
    injection E as <-. simpl. f_equal. now apply IH.
Qed.


(** The overflow does not depend on the path for exponents above 100:
    the exponents met here are at most 3. *)
Lemma draw_overflow_any_library (large : Binary64.complex -> nat -> outcome Binary64.complex) :
  @General.draw _ (Binary64.complex_number large)
    16
    [Binary64.mkC 0 0; Binary64.mkC 1 0]
    (Binary64.mkC 0x1.1dbf316b346e8p+342 0)
    16
  = Raises OverflowError.
Proof. vm_compute. reflexivity. Qed.



(** On the series of scenario C the lengths are 1, 1, 2, 2, 3, 3, 3, 3. *)
Example draw_scenario_C :
  exists points,
    draw 8 [0; 1] 2 8
    = Returns (points, [1 # 3; 1 # 3; 2 # 3; 2 # 3; 3 # 3; 3 # 3; 3 # 3; 3 # 3]%Q).
Proof. eexists. reflexivity. Qed.

(** * Further properties of the code *)

(** ** More about the loop of [to_base] *)

Lemma to_base_fuel_mono (fuel fuel' : nat) (num base : Z) (s : string) :
  (fuel <= fuel')%nat ->
  to_base fuel num base = Returns s -> to_base fuel' num base = Returns s.
Proof.
  unfold to_base. intros Hle. destruct (num =? 0); [trivial|].
  apply to_base_loop_fuel_mono. exact Hle.
Qed.

(** A result obtained with some fuel is the string [digits]. *)
Lemma to_base_result (fuel : nat) (num base : Z) (s : string) :
  2 <= base -> 0 <= num ->
  to_base fuel num base = Returns s ->
  s = digits (S (Z.to_nat num) + fuel) num base.
Proof.
  intros Hb Hn Hs.
  apply (@to_base_fuel_mono fuel (S (Z.to_nat num) + fuel)) in Hs; [|lia].
  rewrite to_base_returns in Hs by (try assumption; lia).
  now injection Hs as <-.
Qed.

Lemma digits_fuel_irrelevant (f1 f2 : nat) (num base : Z) :
  2 <= base -> 0 <= num ->
  (Z.to_nat num < f1)%nat -> (Z.to_nat num < f2)%nat ->
  digits f1 num base = digits f2 num base.
Proof.
  intros Hb Hn H1 H2.
  pose proof (@to_base_returns f1 num base Hb Hn H1) as E1.
  pose proof (@to_base_returns f2 num base Hb Hn H2) as E2.
  apply (@to_base_fuel_mono f1 (f1 + f2)) in E1; [|lia].
  apply (@to_base_fuel_mono f2 (f1 + f2)) in E2; [|lia].
  rewrite E1 in E2. now injection E2.
Qed.

Lemma digits_step (fuel : nat) (num base : Z) :
  2 <= base -> 0 < num -> (Z.to_nat num < fuel)%nat ->
  digits fuel num base
  = String.append
      (if num / base =? 0 then ""%string else digits fuel (num / base) base)
      (str (num mod base)).
Proof.
  intros Hb Hn Hf. destruct fuel as [|fuel]; [lia|].
  destruct (@quotient_fuel fuel num base Hb Hn Hf) as [Hq0 Hqf].
  unfold digits at 1.
  replace (num =? 0) with false by (symmetry; apply Z.eqb_neq; lia).
  rewrite loop_string_step by exact Hn.
  destruct (num / base =? 0) eqn:E.
  - apply Z.eqb_eq in E. rewrite E. now rewrite loop_string_zero.
  - f_equal.
    rewrite (@digits_fuel_irrelevant (S fuel) fuel (num / base) base)
      by (try assumption; lia).
    unfold digits. now rewrite E.
Qed.

(** Negative quotient of a positive number by a negative base. *)
Lemma negative_base_quotient (num base : Z) :
  0 < num -> base < 0 -> num / base < 0 /\ base < num mod base <= 0.
Proof.
  intros Hn Hb.
  pose proof (Z.mod_neg_bound num base Hb) as Hr.
  pose proof (Z.div_mod num base ltac:(lia)) as Hdm.
  split; [nia | lia].
Qed.

(** The numeral of a positive number does not begin with the character
    "0". *)
Lemma nzhead_not_D0 (d u : Decimal.uint) : Decimal.nzhead d <> Decimal.D0 u.
Proof. induction d; simpl; try discriminate. exact IHd. Qed.

Lemma to_uint_not_D0 (p : positive) (u : Decimal.uint) :
  Pos.to_uint p <> Decimal.D0 u.
Proof.
  intros E.
  pose proof (DecimalPos.Unsigned.to_of (Pos.to_uint p)) as T.
  rewrite DecimalPos.Unsigned.of_to in T. simpl in T.
  unfold Decimal.unorm in T.
  destruct (Decimal.nzhead (Pos.to_uint p)) eqn:N;
    try (rewrite E in T; discriminate T).
  - apply (DecimalPos.Unsigned.to_uint_nonzero p). exact T.
  - exact (nzhead_not_D0 _ N).
Qed.

Lemma str_no_leading_zero (r : Z) :
  1 <= r -> String.get 0 (str r) <> Some "0"%char.
Proof.
  intros Hr. destruct r as [|p|p]; try lia.
  unfold str. simpl. unfold NilZero.string_of_uint.
  pose proof (@to_uint_not_D0 p) as H0.
  pose proof (DecimalPos.Unsigned.to_uint_nonnil p) as Hn.
  destruct (Pos.to_uint p); simpl; try discriminate.
  - congruence.
  - exfalso. eapply H0. reflexivity.
Qed.

Lemma get_0_app (a b : string) :
  a <> ""%string -> String.get 0 (a ++ b) = String.get 0 a.
Proof. destruct a; [congruence | reflexivity]. Qed.

Lemma loop_string_nonempty (fuel : nat) (num base : Z) :
  1 <= num -> (Z.to_nat num < fuel)%nat -> loop_string fuel num base <> ""%string.
Proof.
  intros Hn Hf E. destruct fuel as [|fuel]; [lia|].
  rewrite loop_string_step in E by lia.
  apply (f_equal String.length) in E. rewrite string_length_app in E.
  pose proof (str_nonempty (num mod base)). simpl in E. lia.
Qed.

Lemma loop_string_no_leading_zero (fuel : nat) :
  forall num base,
    2 <= base -> 1 <= num -> (Z.to_nat num < fuel)%nat ->
    String.get 0 (loop_string fuel num base) <> Some "0"%char.
Proof.
  induction fuel as [|fuel IH]; intros num base Hb Hn Hf; [lia|].
  rewrite loop_string_step by lia.
  destruct (@quotient_fuel fuel num base Hb ltac:(lia) Hf) as [Hq0 Hqf].
  destruct (Z.eq_dec (num / base) 0) as [E | E].
  - rewrite E, loop_string_zero. simpl.
    apply Z.div_small_iff in E; [|lia].
    rewrite Z.mod_small by lia. apply str_no_leading_zero. exact Hn.
  - rewrite get_0_app by (apply loop_string_nonempty; lia).
    apply IH; [exact Hb | lia | exact Hqf].
Qed.

(** ** [to_base]: edge cases and canonical form *)

(** X1. A negative number never enters the loop: whatever the base,
    [to_base] returns the empty string, and [from_repr] reads this string
    as zero. *)
Theorem to_base_negative_number {C : Type} `{Numeric C}
        (fuel : nat) (num base : Z) (radix : C) (symbols : list C) :
  num < 0 -> (1 <= fuel)%nat ->
  to_base fuel num base = Returns ""%string
  /\ (s <- to_base fuel num base ;; from_repr s radix symbols) = Returns czero.
Proof.
  intros Hn Hf. assert (E : to_base fuel num base = Returns ""%string).
  { unfold to_base.
    replace (num =? 0) with false by (symmetry; apply Z.eqb_neq; lia).
    destruct fuel as [|fuel]; [lia|]. simpl.
    now replace (0 <? num) with false by (symmetry; apply Z.ltb_ge; lia). }
  split; [exact E|]. rewrite E. reflexivity.
Qed.

Lemma to_base_negative_number_witness :
  -7 < 0 /\ (1 <= 1)%nat
  /\ to_base 1 (-7) 2 = Returns ""%string
  /\ (s <- to_base 1 (-7) 2 ;; from_repr s 2 [0; 1]) = Returns czero.
Proof.
  assert (H1 : -7 < 0) by lia.
  assert (H2 : (1 <= 1)%nat) by lia.
  repeat (split; [assumption|]).
  exact (@to_base_negative_number Z Numeric_int 1 (-7) 2 2 [0; 1] H1 H2).
Defined.

Lemma to_base_base_one_diverges_witness :
  0 < 1 /\ to_base 1000 1 1 = OutOfFuel.
Proof.
  assert (H1 : 0 < 1) by lia.
  split; [exact H1|].
  exact (@to_base_base_one_diverges 1000 1 H1).
Defined.

(** X3. With a negative base and a positive number the loop runs once:
    the quotient is negative, and the result is the numeral of
    [num % base], a number in [(base, 0]], minus sign included. *)
Theorem to_base_negative_base (fuel : nat) (num base : Z) :
  0 < num -> base < 0 -> (2 <= fuel)%nat ->
  to_base fuel num base = Returns (str (num mod base))
  /\ base < num mod base <= 0.
Proof.
  intros Hn Hb Hf. destruct (negative_base_quotient Hn Hb) as [Hq Hr].
  split; [|exact Hr].
  destruct fuel as [|[|fuel]]; try lia.
  unfold to_base.
  replace (num =? 0) with false by (symmetry; apply Z.eqb_neq; lia).
  simpl.
  replace (0 <? num) with true by (symmetry; apply Z.ltb_lt; lia).
  replace (base =? 0) with false by (symmetry; apply Z.eqb_neq; lia).
  replace (0 <? num / base) with false by (symmetry; apply Z.ltb_ge; lia).
  now rewrite string_app_empty_r.
Qed.

Lemma to_base_negative_base_witness :
  0 < 5 /\ -2 < 0 /\ (2 <= 2)%nat
  /\ to_base 2 5 (-2) = Returns (str (5 mod -2))
  /\ -2 < 5 mod -2 <= 0.
Proof.
  assert (H1 : 0 < 5) by lia.
  assert (H2 : -2 < 0) by lia.
  assert (H3 : (2 <= 2)%nat) by lia.
  repeat (split; [assumption|]).
  exact (@to_base_negative_base 2 5 (-2) H1 H2 H3).
Defined.

Example to_base_negative_base_example : to_base 2 5 (-2) = Returns "-1"%string.
Proof. reflexivity. Qed.

(** X4. For a base of at least two and a number that is not negative,
    [to_base] returns a string that is not empty and consists of decimal
    digits, each with a value below the base: every character of it is an
    index into a table of [base] symbols. *)
Theorem to_base_digit_string (fuel : nat) (num base : Z) :
  2 <= base -> 0 <= num -> (Z.to_nat num < fuel)%nat ->
  exists s, to_base fuel num base = Returns s
            /\ 1 <= len s
            /\ digit_string s
            /\ digits_below base s.
Proof.
  intros Hb Hn Hf. exists (digits fuel num base).
  split; [apply to_base_returns; assumption|].
  split; [apply digits_nonempty; assumption|].
  pose proof (@digits_digits_below fuel num base Hb) as D.
  split; [|exact D].
  unfold digit_string. eapply Forall_impl; [|exact D].
  intros c [d [Hd _]]. congruence.
Qed.

Lemma to_base_digit_string_witness :
  2 <= 16 /\ 0 <= 255 /\ (Z.to_nat 255 < 256)%nat
  /\ exists s, to_base 256 255 16 = Returns s
               /\ 1 <= len s
               /\ digit_string s
               /\ digits_below 16 s.
Proof.
  assert (H1 : 2 <= 16) by lia.
  assert (H2 : 0 <= 255) by lia.
  assert (H3 : (Z.to_nat 255 < 256)%nat) by (simpl; lia).
  repeat (split; [assumption|]).
  exact (@to_base_digit_string 256 255 16 H1 H2 H3).
Defined.

(** X5. For a base of at least two and a positive number, the string
    returned by [to_base] does not begin with the character "0". *)
Theorem to_base_no_leading_zero (fuel : nat) (num base : Z) :
  2 <= base -> 1 <= num -> (Z.to_nat num < fuel)%nat ->
  exists s, to_base fuel num base = Returns s
            /\ String.get 0 s <> Some "0"%char.
Proof.
  intros Hb Hn Hf. exists (digits fuel num base).
  split; [apply to_base_returns; lia|].
  unfold digits.
  replace (num =? 0) with false by (symmetry; apply Z.eqb_neq; lia).
  apply loop_string_no_leading_zero; assumption.
Qed.

Lemma to_base_no_leading_zero_witness :
  2 <= 3 /\ 1 <= 9 /\ (Z.to_nat 9 < 10)%nat
  /\ exists s, to_base 10 9 3 = Returns s
               /\ String.get 0 s <> Some "0"%char.
Proof.
  assert (H1 : 2 <= 3) by lia.
  assert (H2 : 1 <= 9) by lia.
  assert (H3 : (Z.to_nat 9 < 10)%nat) by (simpl; lia).
  repeat (split; [assumption|]).
  exact (@to_base_no_leading_zero 10 9 3 H1 H2 H3).
Defined.

(** X6. For a base from 2 to 10, [to_base] is injective on the numbers
    that are not negative: two numbers with the same digit string are
    equal. *)
Theorem to_base_injective (fuel fuel' : nat) (a b base : Z) (s : string) :
  2 <= base <= 10 -> 0 <= a -> 0 <= b ->
  to_base fuel a base = Returns s ->
  to_base fuel' b base = Returns s ->
  a = b.
Proof.
  intros Hb Ha Hb' Ea Eb.
  apply to_base_result in Ea; [|lia|exact Ha].
  apply to_base_result in Eb; [|lia|exact Hb'].
  pose proof (@from_repr_digits Z Numeric_int NumericLaws_int
                (S (Z.to_nat a) + fuel) a base Hb Ha ltac:(lia)) as Ra.
  pose proof (@from_repr_digits Z Numeric_int NumericLaws_int
                (S (Z.to_nat b) + fuel') b base Hb Hb' ltac:(lia)) as Rb.
  rewrite <- Ea in Ra. rewrite <- Eb in Rb. rewrite Ra in Rb.
  now injection Rb.
Qed.

Lemma to_base_injective_witness :
  2 <= 2 <= 10 /\ 0 <= 5 /\ 0 <= 5
  /\ to_base 4 5 2 = Returns "101"%string
  /\ to_base 9 5 2 = Returns "101"%string
  /\ 5 = 5.
Proof.
  assert (H1 : 2 <= 2 <= 10) by lia.
  assert (H2 : 0 <= 5) by lia.
  assert (H3 : to_base 4 5 2 = Returns "101"%string) by reflexivity.
  assert (H4 : to_base 9 5 2 = Returns "101"%string) by reflexivity.
  repeat (split; [assumption|]).
  exact (@to_base_injective 4 9 5 5 2 "101" H1 H2 H2 H3 H4).
Defined.

(** X7. For every base above ten, the numbers 10 and [base] have the same
    digit string "10": the remainder 10 is written with the two characters
    that also spell one times the base. *)
Theorem to_base_collision (fuel : nat) (base : Z) :
  11 <= base -> (Z.to_nat base < fuel)%nat ->
  to_base fuel 10 base = Returns "10"%string
  /\ to_base fuel base base = Returns "10"%string
  /\ 10 <> base.
Proof.
  intros Hb Hf. destruct fuel as [|[|fuel]]; try lia.
  split; [|split; [|lia]].
  - rewrite to_base_returns by lia. f_equal.
    unfold digits. change (10 =? 0) with false. cbv iota.
    rewrite loop_string_step by lia.
    rewrite Z.mod_small, Z.div_small by lia.
    now rewrite loop_string_zero.
  - rewrite to_base_returns by lia. f_equal.
    unfold digits.
    replace (base =? 0) with false by (symmetry; apply Z.eqb_neq; lia).
    rewrite loop_string_step by lia.
    rewrite Z.mod_same, Z.div_same by lia.
    rewrite loop_string_step by lia.
    rewrite Z.mod_small, Z.div_small by lia.
    now rewrite loop_string_zero.
Qed.

Lemma to_base_collision_witness :
  11 <= 11 /\ (Z.to_nat 11 < 12)%nat
  /\ to_base 12 10 11 = Returns "10"%string
  /\ to_base 12 11 11 = Returns "10"%string
  /\ 10 <> 11.
Proof.
  assert (H1 : 11 <= 11) by lia.
  assert (H2 : (Z.to_nat 11 < 12)%nat) by (simpl; lia).
  repeat (split; [assumption|]).
  exact (@to_base_collision 12 11 H1 H2).
Defined.

Lemma digits_length_bounds (fuel : nat) (num base : Z) :
  2 <= base <= 10 -> 1 <= num -> (Z.to_nat num < fuel)%nat ->
  1 <= len (digits fuel num base)
  /\ base ^ (len (digits fuel num base) - 1) <= num
     < base ^ len (digits fuel num base).
Proof.
  intros Hb Hn Hf. split; [apply digits_nonempty; lia|].
  unfold digits.
  replace (num =? 0) with false by (symmetry; apply Z.eqb_neq; lia).
  apply loop_string_length_bounds; assumption.
Qed.

Lemma digits_length_mono (fa fb : nat) (a b base : Z) :
  2 <= base <= 10 -> 0 <= a <= b ->
  (Z.to_nat a < fa)%nat -> (Z.to_nat b < fb)%nat ->
  len (digits fa a base) <= len (digits fb b base).
Proof.
  intros Hbase Hab Hfa Hfb.
  destruct (Z.eq_dec a 0) as [-> | Ha].
  - change (len (digits fa 0 base)) with 1. apply digits_nonempty; lia.
  - destruct (@digits_length_bounds fa a base Hbase ltac:(lia) Hfa) as [La Ba].
    destruct (@digits_length_bounds fb b base Hbase ltac:(lia) Hfb) as [Lb Bb].
    destruct (Z_le_gt_dec (len (digits fa a base)) (len (digits fb b base)))
      as [Hle | Hgt]; [exact Hle|].
    assert (base ^ len (digits fb b base) <= base ^ (len (digits fa a base) - 1))
      by (apply Z.pow_le_mono_r; lia).
    lia.
Qed.

(** X8. For a base from 2 to 10, a larger number never has a shorter digit
    string. *)
Theorem to_base_length_monotone (fuel : nat) (a b base : Z) :
  2 <= base <= 10 -> 0 <= a <= b -> (Z.to_nat b < fuel)%nat ->
  exists sa sb, to_base fuel a base = Returns sa
                /\ to_base fuel b base = Returns sb
                /\ len sa <= len sb.
Proof.
  intros Hbase Hab Hf.
  exists (digits fuel a base), (digits fuel b base).
  split; [apply to_base_returns; lia|].
  split; [apply to_base_returns; lia|].
  apply digits_length_mono; try assumption; lia.
Qed.

Lemma to_base_length_monotone_witness :
  2 <= 2 <= 10 /\ 0 <= 3 <= 4 /\ (Z.to_nat 4 < 5)%nat
  /\ exists sa sb, to_base 5 3 2 = Returns sa
                   /\ to_base 5 4 2 = Returns sb
                   /\ len sa <= len sb.
Proof.
  assert (H1 : 2 <= 2 <= 10) by lia.
  assert (H2 : 0 <= 3 <= 4) by lia.
  assert (H3 : (Z.to_nat 4 < 5)%nat) by (simpl; lia).
  repeat (split; [assumption|]).
  exact (@to_base_length_monotone 5 3 4 2 H1 H2 H3).
Defined.

(** For a base above ten the length is not monotone: in base 11 the
    number 21 is written "110" and 22 is written "20". *)
Example to_base_length_not_monotone :
  to_base 4 21 11 = Returns "110"%string /\ to_base 4 22 11 = Returns "20"%string.
Proof. split; reflexivity. Qed.

(** X9. For a base of at least two, a positive number below the base is
    written as its own numeral, and the digit string of a number of at
    least the base is the digit string of [num // base] followed by the
    numeral of [num % base]. *)
Theorem to_base_unfold (fuel : nat) (num base : Z) :
  2 <= base -> 0 < num -> (Z.to_nat num < fuel)%nat ->
  (num < base -> to_base fuel num base = Returns (str num))
  /\ (base <= num ->
      exists s, to_base fuel (num / base) base = Returns s
                /\ to_base fuel num base
                   = Returns (s ++ str (num mod base))%string).
Proof.
  intros Hb Hn Hf.
  pose proof (@digits_step fuel num base Hb Hn Hf) as E.
  rewrite to_base_returns by lia. split.
  - intros Hlt. rewrite E.
    rewrite Z.div_small, Z.mod_small by lia. reflexivity.
  - intros Hge. exists (digits fuel (num / base) base).
    assert (0 < num / base) by (apply Z.div_str_pos; lia).
    assert (num / base < num) by (apply Z.div_lt; lia).
    split; [apply to_base_returns; lia|].
    rewrite E.
    now replace (num / base =? 0) with false
      by (symmetry; apply Z.eqb_neq; lia).
Qed.

Lemma to_base_unfold_witness :
  2 <= 16 /\ 0 < 255 /\ (Z.to_nat 255 < 256)%nat
  /\ (255 < 16 -> to_base 256 255 16 = Returns (str 255))
  /\ (16 <= 255 ->
      exists s, to_base 256 (255 / 16) 16 = Returns s
                /\ to_base 256 255 16
                   = Returns (s ++ str (255 mod 16))%string).
Proof.
  assert (H1 : 2 <= 16) by lia.
  assert (H2 : 0 < 255) by lia.
  assert (H3 : (Z.to_nat 255 < 256)%nat) by (simpl; lia).
  repeat (split; [assumption|]).
  exact (@to_base_unfold 256 255 16 H1 H2 H3).
Defined.

(** ** [from_repr]: errors and positional structure *)

Section FromReprErrors.
Context {C : Type} `{PyNumber C}.

(** Digits that have an entry in the table are consumed without error
    when [pow] returns at their indices. *)
Lemma from_repr_loop_good_prefix (r : C) (symbols : list C) (l : list ascii) :
  forall i acc rest,
    Forall (fun c => exists d, digit_value c = Some d /\ d < len_list symbols) l ->
    (forall k, (i <= k < i + List.length l)%nat ->
               exists p, npow r k = Returns p) ->
    exists acc',
      General.from_repr_loop (enumerate_from i (l ++ rest)) r symbols acc
      = General.from_repr_loop (enumerate_from (i + List.length l) rest)
                               r symbols acc'.
Proof.
  induction l as [|c l IH]; intros i acc rest Hl Hpow.
  - exists acc. simpl. now rewrite Nat.add_0_r.
  - inversion Hl as [|c' l' [d [Hd Hlt]] Hrest]; subst.
    pose proof (digit_value_range c Hd) as Hrange.
    simpl. unfold int_of_char. rewrite Hd. simpl.
    rewrite (getitem_below symbols (d := d) nzero) by lia. simpl.
    destruct (Hpow i) as [p Ep]; [simpl; lia|]. rewrite Ep. simpl.
    destruct (IH (S i) (nadd acc (nmul (nth (Z.to_nat d) symbols nzero) p))
                 rest Hrest) as [acc' E].
    { intros k Hk. apply Hpow. simpl. lia. }
    exists acc'. rewrite E. do 2 f_equal. lia.
Qed.

Lemma reversed_app_cons (s1 : string) (c : ascii) (s2 : string) :
  reversed (s1 ++ String c s2) = reversed s2 ++ c :: reversed s1.
Proof.
  unfold reversed. rewrite list_ascii_of_string_app. simpl.
  rewrite rev_app_distr. simpl. now rewrite <- app_assoc.
Qed.

(** X10. The characters are read from the right, and the first one that
    cannot be used decides the error: when every character to the right
    of [c] is a digit with an entry in the table and [pow] returns at the
    indices of these digits, [from_repr] fails with [ValueError] if [c]
    is not one of the characters ['0'] to ['9'] and with [IndexError] if
    [c] is a digit without an entry, whatever stands to the left of
    [c]. *)
Theorem from_repr_rightmost_error
        (s1 : string) (c : ascii) (s2 : string) (radix : C) (symbols : list C) :
  digits_below (len_list symbols) s2 ->
  (forall k, (k < String.length s2)%nat -> exists p, npow radix k = Returns p) ->
  (digit_value c = None ->
   General.from_repr (s1 ++ String c s2) radix symbols = Raises ValueError)
  /\ (forall d, digit_value c = Some d -> len_list symbols <= d ->
      General.from_repr (s1 ++ String c s2) radix symbols = Raises IndexError).
Proof.
  intros Hs2 Hpow. unfold General.from_repr, enumerate.
  rewrite reversed_app_cons.
  destruct (@from_repr_loop_good_prefix radix symbols (reversed s2) 0%nat nzero
              (c :: reversed s1) (digits_below_reversed Hs2)) as [acc' E].
  { intros k Hk. apply Hpow. unfold reversed in Hk.
    rewrite length_rev, length_list_ascii in Hk. lia. }
  rewrite E. split.
  - intros Hc. simpl. unfold int_of_char. now rewrite Hc.
  - intros d Hd Hbad. pose proof (digit_value_range c Hd) as Hrange.
    simpl. unfold int_of_char. rewrite Hd. simpl.
    now rewrite getitem_beyond by lia.
Qed.
End FromReprErrors.

Lemma from_repr_rightmost_error_witness :
  digits_below (len_list [0; 1]) "01"
  /\ (forall k, (k < String.length "01")%nat -> exists p, npow 2 k = Returns p)
  /\ General.from_repr "7-01" 2 [0; 1] = Raises ValueError.
Proof.
  assert (Hs : digits_below (len_list [0; 1]) "01").
  { unfold digits_below. simpl.
    repeat constructor; eexists; (split; [reflexivity | reflexivity]). }
  assert (Hp : forall k, (k < String.length "01")%nat ->
                         exists p, npow 2 k = Returns p)
    by (intros k _; eexists; reflexivity).
  split; [exact Hs|]. split; [exact Hp|].
  apply (proj1 (@from_repr_rightmost_error Z _ "7" "-"%char "01"
                  2 [0; 1] Hs Hp)).
  reflexivity.
Defined.

Section Positional.
Context {C : Type} `{NumericLaws C}.

Lemma cmul_1_l (x : C) : cmul cone x = x.
Proof. rewrite cmul_comm. apply cmul_1_r. Qed.

Lemma cmul_0_r (x : C) : cmul x czero = czero.
Proof. rewrite cmul_comm. apply cmul_0_l. Qed.

Lemma cmul_add_distr_l (x y z : C) :
  cmul x (cadd y z) = cadd (cmul x y) (cmul x z).
Proof.
  rewrite cmul_comm, cmul_add_distr_r.
  now rewrite (cmul_comm y x), (cmul_comm z x).
Qed.

Lemma cpow_add (r : C) (n k : nat) :
  cpow r (n + k) = cmul (cpow r n) (cpow r k).
Proof.
  induction n as [|n IH]; simpl.
  - now rewrite cmul_1_l.
  - now rewrite IH, cmul_assoc.
Qed.

Lemma cpow_zero_succ (k : nat) : cpow czero (S k) = czero.
Proof. simpl. apply cmul_0_l. Qed.

Lemma sum_upto_add (n m : nat) (f : nat -> C) :
  sum_upto (n + m) f
  = cadd (sum_upto n f) (sum_upto m (fun k => f (n + k)%nat)).
Proof.
  induction m as [|m IH].
  - simpl. now rewrite Nat.add_0_r, cadd_0_r.
  - replace (n + S m)%nat with (S (n + m)) by lia. simpl.
    now rewrite IH, cadd_assoc.
Qed.

Lemma sum_upto_scale (m : nat) (a : C) (g : nat -> C) :
  sum_upto m (fun k => cmul a (g k)) = cmul a (sum_upto m g).
Proof.
  induction m as [|m IH]; simpl.
  - now rewrite cmul_0_r.
  - now rewrite IH, cmul_add_distr_l.
Qed.

Lemma sum_upto_head (n : nat) (f : nat -> C) :
  (forall k, f (S k) = czero) -> sum_upto (S n) f = f 0%nat.
Proof.
  intros Hf. induction n as [|n IH].
  - simpl. apply cadd_0_l.
  - change (sum_upto (S (S n)) f) with (cadd (sum_upto (S n) f) (f (S n))).
    now rewrite IH, Hf, cadd_0_r.
Qed.

Lemma term_in_app_left (l2 l1 : list ascii) (r : C) (symbols : list C) (k : nat) :
  (k < List.length l2)%nat ->
  term_in (l2 ++ l1) r symbols k = term_in l2 r symbols k.
Proof.
  intros Hk. unfold term_in, digit_in. now rewrite nth_error_app1 by exact Hk.
Qed.

Lemma term_in_app_right (l2 l1 : list ascii) (r : C) (symbols : list C) (k : nat) :
  term_in (l2 ++ l1) r symbols (List.length l2 + k)
  = cmul (cpow r (List.length l2)) (term_in l1 r symbols k).
Proof.
  unfold term_in, digit_in. rewrite nth_error_app2 by lia.
  replace (List.length l2 + k - List.length l2)%nat with k by lia.
  rewrite cpow_add.
  set (sym := symbol_at symbols _).
  rewrite (cmul_assoc sym), (cmul_comm sym), <- cmul_assoc.
  reflexivity.
Qed.

Lemma length_reversed (s : string) : List.length (reversed s) = String.length s.
Proof. unfold reversed. now rewrite length_rev, length_list_ascii. Qed.

Lemma reversed_app (s1 s2 : string) :
  reversed (s1 ++ s2) = reversed s2 ++ reversed s1.
Proof.
  unfold reversed. now rewrite list_ascii_of_string_app, rev_app_distr.
Qed.

(** The sum of a concatenation: the left part is shifted by the length of
    the right part. *)
Lemma radix_sum_app (s1 s2 : string) (r : C) (symbols : list C) :
  radix_sum (s1 ++ s2) r symbols
  = cadd (radix_sum s2 r symbols)
         (cmul (cpow r (String.length s2)) (radix_sum s1 r symbols)).
Proof.
  rewrite !radix_sum_reversed. rewrite reversed_app.
  rewrite string_length_app, Nat.add_comm.
  rewrite <- !length_reversed.
  rewrite sum_upto_add. f_equal.
  - apply sum_upto_ext. intros k Hk. now apply term_in_app_left.
  - rewrite <- sum_upto_scale. apply sum_upto_ext. intros k _.
    apply term_in_app_right.
Qed.

Lemma digits_below_app (size : Z) (s1 s2 : string) :
  digits_below size s1 -> digits_below size s2 -> digits_below size (s1 ++ s2).
Proof.
  unfold digits_below. intros H1 H2.
  rewrite list_ascii_of_string_app. apply Forall_app. now split.
Qed.

(** X11. Concatenation is positional: for two digit strings whose digits
    all have an entry in the table, the value of [s1 + s2] is the value of
    [s2] plus [radix ** len(s2)] times the value of [s1]. *)
Theorem from_repr_concat (s1 s2 : string) (radix : C) (symbols : list C) :
  digits_below (len_list symbols) s1 ->
  digits_below (len_list symbols) s2 ->
  exists v1 v2,
    from_repr s1 radix symbols = Returns v1
    /\ from_repr s2 radix symbols = Returns v2
    /\ from_repr (s1 ++ s2) radix symbols
       = Returns (cadd v2 (cmul (cpow radix (String.length s2)) v1)).
Proof.
  intros H1 H2.
  exists (radix_sum s1 radix symbols), (radix_sum s2 radix symbols).
  split; [apply from_repr_sum; exact H1|].
  split; [apply from_repr_sum; exact H2|].
  rewrite from_repr_sum by (apply digits_below_app; assumption).
  now rewrite radix_sum_app.
Qed.

(** X12. With radix zero only the rightmost digit counts: a digit string
    that is not empty evaluates to the symbol of its last character. *)
Theorem from_repr_radix_zero (s : string) (symbols : list C) :
  digits_below (len_list symbols) s -> s <> ""%string ->
  from_repr s czero symbols = Returns (symbol_at symbols (digit_at s 0)).
Proof.
  intros Hs Hne. rewrite from_repr_sum by exact Hs. f_equal.
  unfold radix_sum. destruct (String.length s) as [|n] eqn:L.
  - destruct s; [congruence | discriminate L].
  - rewrite sum_upto_head.
    + simpl. apply cmul_1_r.
    + intros k. now rewrite cpow_zero_succ, cmul_0_r.
Qed.

(** X13. When the symbol of digit 0 is zero, as in every table built by
    [generate_roots_of_unity], a leading "0" does not change the value. *)
Theorem from_repr_leading_zero (s : string) (radix : C) (symbols : list C) :
  digits_below (len_list symbols) s ->
  nth_error symbols 0 = Some czero ->
  from_repr (String "0" s) radix symbols = from_repr s radix symbols.
Proof.
  intros Hs Hz0.
  assert (Hz : digits_below (len_list symbols) "0").
  { unfold digits_below. simpl. constructor; [|constructor].
    exists 0. split; [reflexivity|].
    destruct symbols; [discriminate Hz0|]. unfold len_list. simpl. lia. }
  change (String "0" s) with ("0" ++ s)%string.
  rewrite from_repr_sum by (apply digits_below_app; assumption).
  rewrite (@from_repr_sum C H s radix symbols Hs). f_equal.
  rewrite radix_sum_app.
  replace (radix_sum "0" radix symbols) with czero.
  - now rewrite cmul_0_r, cadd_0_r.
  - unfold radix_sum, symbol_at, digit_at. simpl.
    destruct symbols as [|x symbols]; [discriminate Hz0|].
    injection Hz0 as ->. simpl.
    now rewrite cmul_1_r, cadd_0_l.
Qed.
End Positional.

Lemma digits_below_binary_101 : digits_below (len_list [0; 1]) "101".
Proof.
  unfold digits_below. simpl.
  repeat constructor; eexists; (split; [reflexivity | reflexivity]).
Defined.

Lemma from_repr_concat_witness :
  digits_below (len_list [0; 1]) "101"
  /\ exists v1 v2,
      from_repr "101" 2 [0; 1] = Returns v1
      /\ from_repr "101" 2 [0; 1] = Returns v2
      /\ from_repr ("101" ++ "101") 2 [0; 1]
         = Returns (cadd v2 (cmul (cpow 2 (String.length "101")) v1)).
Proof.
  split; [exact digits_below_binary_101|].
  exact (@from_repr_concat Z Numeric_int NumericLaws_int "101" "101" 2 [0; 1]
           digits_below_binary_101 digits_below_binary_101).
Defined.

Lemma from_repr_radix_zero_witness :
  digits_below (len_list [0; 1]) "101" /\ "101"%string <> ""%string
  /\ from_repr "101" czero [0; 1]
     = Returns (symbol_at [0; 1] (digit_at "101" 0)).
Proof.
  assert (Hne : "101"%string <> ""%string) by discriminate.
  split; [exact digits_below_binary_101|]. split; [exact Hne|].
  exact (@from_repr_radix_zero Z Numeric_int NumericLaws_int "101" [0; 1]
           digits_below_binary_101 Hne).
Defined.

Lemma from_repr_leading_zero_witness :
  digits_below (len_list [0; 1]) "101"
  /\ nth_error [0; 1] 0 = Some czero
  /\ from_repr (String "0" "101") 2 [0; 1] = from_repr "101" 2 [0; 1].
Proof.
  assert (Hz : nth_error [0; 1] 0 = Some czero) by reflexivity.
  split; [exact digits_below_binary_101|]. split; [exact Hz|].
  exact (@from_repr_leading_zero Z Numeric_int NumericLaws_int "101" 2 [0; 1]
           digits_below_binary_101 Hz).
Defined.


(** ** [draw]: degenerate inputs and the shape of the series *)

Lemma range2_cons (a b : Z) : a < b -> range2 a b = a :: range2 (a + 1) b.
Proof.
  intros Hab. unfold range2.
  replace (Z.to_nat (b - a)) with (S (Z.to_nat (b - (a + 1)))) by lia.
  simpl. f_equal; [lia|].
  rewrite <- seq_shift, map_map. apply map_ext. intros k. lia.
Qed.

Lemma range_empty (n : Z) : n <= 0 -> range n = [].
Proof.
  intros Hn. unfold range, range2.
  now replace (Z.to_nat (n - 0)) with 0%nat by lia.
Qed.



Section DrawFacts.
Context {C : Type} `{Numeric C}.

(** The output of [draw], written out, for a table of at least two
    symbols. *)
Lemma draw_explicit (fuel : nat) (symbols : list C) (radix : C) (N : Z) :
  2 <= len_list symbols -> 1 <= N -> (Z.to_nat N <= fuel)%nat ->
  exists m,
    In m (map (fun i => len (digits fuel i (len_list symbols))) (range N))
    /\ Forall (fun l => l <= m)
              (map (fun i => len (digits fuel i (len_list symbols))) (range N))
    /\ 1 <= m
    /\ draw fuel symbols radix N
       = Returns
           (map (fun i => radix_sum (digits fuel i (len_list symbols))
                                    radix symbols) (range N),
            map (fun i => (inject_Z (len (digits fuel i (len_list symbols)))
                           / inject_Z m)%Q) (range N)).
Proof.
  intros Hs HN Hf. set (level := len_list symbols) in *.
  assert (Hi : forall i, In i (range N) -> 0 <= i /\ (Z.to_nat i < fuel)%nat).
  { intros i Hin. apply in_range in Hin. lia. }
  assert (Hto : forall i, In i (range N) ->
                          to_base fuel i level = Returns (digits fuel i level)).
  { intros i Hin. destruct (Hi i Hin). apply to_base_returns; lia. }
  set (lengths := map (fun i => len (digits fuel i level)) (range N)).
  assert (E1 : comprehension
                 (fun i => s <- to_base fuel i level ;; Returns (len s))
                 (range N) = Returns lengths).
  { apply comprehension_returns. intros i Hin. now rewrite Hto. }
  destruct (@py_max_spec lengths) as [m [Em [Hm Hall]]].
  { unfold lengths. intros E. apply map_eq_nil in E.
    revert E. apply range_nonempty. exact HN. }
  assert (Hm1 : 1 <= m).
  { unfold lengths in Hm. apply in_map_iff in Hm.
    destruct Hm as [i [<- Hin]]. destruct (Hi i Hin).
    apply digits_nonempty; assumption. }
  assert (E3 : comprehension
                 (fun i => s <- to_base fuel i level ;; from_repr s radix symbols)
                 (range N)
               = Returns (map (fun i => radix_sum (digits fuel i level)
                                                  radix symbols) (range N))).
  { apply comprehension_returns. intros i Hin. rewrite Hto by exact Hin.
    simpl. apply from_repr_sum. apply digits_digits_below. exact Hs. }
  assert (E4 : comprehension (fun length => truediv length m) lengths
               = Returns (map (fun l => (inject_Z l / inject_Z m)%Q) lengths)).
  { apply comprehension_returns. intros l _. apply truediv_returns. lia. }
  exists m. split; [exact Hm|]. split; [exact Hall|]. split; [exact Hm1|].
  unfold draw. fold level. rewrite E1. simpl. rewrite Em. simpl.
  rewrite E3. simpl. rewrite E4. simpl.
  unfold lengths. now rewrite map_map.
Qed.

(** X17. With a number of points that is zero or negative, [draw] fails
    with [ValueError]: the list of lengths is empty and has no maximum. *)
Theorem draw_no_points (fuel : nat) (symbols : list C) (radix : C) (N : Z) :
  N <= 0 -> draw fuel symbols radix N = Raises ValueError.
Proof.
  intros HN. unfold draw. rewrite range_empty by exact HN. reflexivity.
Qed.

(** X18. With a table of one symbol and at least two points, [draw] never
    returns: the level is 1 and [to_base(1, 1)] does not leave its loop,
    whatever the fuel. *)
Theorem draw_single_symbol_diverges
        (fuel : nat) (symbols : list C) (radix : C) (N : Z) :
  len_list symbols = 1 -> 2 <= N ->
  draw fuel symbols radix N = OutOfFuel.
Proof.
  intros Hs HN. unfold draw. rewrite Hs.
  unfold range. rewrite range2_cons by lia. rewrite range2_cons by lia.
  cbn [comprehension]. change (to_base fuel 0 1) with (Returns "0"%string).
  cbn [bind]. change (0 + 1) with 1. unfold to_base at 1.
  change (1 =? 0) with false. cbv iota.
  now rewrite to_base_loop_base_one by lia.
Qed.
End DrawFacts.

Lemma draw_no_points_witness :
  0 <= 0 /\ draw 5 [0; 1] 2 0 = Raises ValueError.
Proof.
  assert (HN : 0 <= 0) by lia.
  split; [exact HN|].
  exact (@draw_no_points Z Numeric_int 5 [0; 1] 2 0 HN).
Defined.

Lemma draw_single_symbol_diverges_witness :
  len_list [0] = 1 /\ 2 <= 16 /\ draw 1000 [0] 2 16 = OutOfFuel.
Proof.
  assert (H1 : len_list [0] = 1) by reflexivity.
  assert (H2 : 2 <= 16) by lia.
  repeat (split; [assumption|]).
  exact (@draw_single_symbol_diverges Z Numeric_int 1000 [0] 2 16 H1 H2).
Defined.

(** X19. With an empty table the level is 0: for one point, [draw] fails
    with [IndexError] when [from_repr] looks up the digit of "0"; for two
    points or more it fails with [ZeroDivisionError] in [to_base(1, 0)]. *)
Theorem draw_empty_table {C : Type} `{Numeric C} (fuel : nat) (radix : C) (N : Z) :
  (1 <= fuel)%nat ->
  (N = 1 -> draw fuel [] radix N = Raises IndexError)
  /\ (2 <= N -> draw fuel [] radix N = Raises ZeroDivisionError).
Proof.
  intros Hf. split.
  - intros ->. reflexivity.
  - intros HN. unfold draw. change (len_list (@nil C)) with 0.
    unfold range. rewrite range2_cons by lia. rewrite range2_cons by lia.
    cbn [comprehension]. change (to_base fuel 0 0) with (Returns "0"%string).
    cbn [bind]. destruct fuel as [|fuel]; [lia|]. reflexivity.
Qed.

Lemma draw_empty_table_witness :
  (1 <= 1)%nat
  /\ (1 = 1 -> draw 1 [] 2 1 = Raises IndexError)
  /\ (2 <= 1 -> draw 1 [] 2 1 = Raises ZeroDivisionError).
Proof.
  assert (Hf : (1 <= 1)%nat) by lia.
  split; [exact Hf|].
  exact (@draw_empty_table Z Numeric_int 1 2 1 Hf).
Defined.

Lemma len_list_identity_symbols {C : Type} `{Numeric C} (level : Z) :
  0 <= level -> len_list (identity_symbols level) = level.
Proof.
  intros Hl. unfold len_list, identity_symbols.
  rewrite length_map, length_range. lia.
Qed.

(** X20. Over the table [[0, 1, ..., level-1]] with the radix [level], for
    a level from 2 to 10, the points computed by [draw] are the numbers
    [0, 1, ..., N-1] themselves, in this order. *)
Theorem draw_identity {C : Type} `{NumericLaws C} (fuel : nat) (level N : Z) :
  2 <= level <= 10 -> 1 <= N -> (Z.to_nat N <= fuel)%nat ->
  exists weights,
    draw fuel (identity_symbols level) (of_int level) N
    = Returns (map of_int (range N), weights).
Proof.
  intros Hl HN Hf.
  pose proof (@len_list_identity_symbols C H level ltac:(lia)) as Hlen.
  destruct (@draw_explicit C H fuel (identity_symbols level) (of_int level) N)
    as [m [_ [_ [_ E]]]]; try assumption; [lia|].
  rewrite E. eexists. f_equal. f_equal.
  apply map_ext_in. intros i Hin. apply in_range in Hin.
  rewrite Hlen.
  pose proof (@from_repr_digits C H H0 fuel i level Hl ltac:(lia) ltac:(lia)) as R.
  rewrite from_repr_sum in R.
  - now injection R.
  - rewrite Hlen. apply digits_digits_below. lia.
Qed.

Lemma draw_identity_witness :
  2 <= 3 <= 10 /\ 1 <= 9 /\ (Z.to_nat 9 <= 9)%nat
  /\ exists weights,
      draw 9 (identity_symbols 3) (of_int 3) 9
      = Returns (map of_int (range 9), weights).
Proof.
  assert (H1 : 2 <= 3 <= 10) by lia.
  assert (H2 : 1 <= 9) by lia.
  assert (H3 : (Z.to_nat 9 <= 9)%nat) by (simpl; lia).
  repeat (split; [assumption|]).
  exact (@draw_identity Z Numeric_int NumericLaws_int 9 3 9 H1 H2 H3).
Defined.



(** ** [generate_roots_of_unity]: the shape of the table *)

Lemma comprehension_nth {A B : Type} (f : A -> outcome B) (xs : list A) :
  forall ys,
    comprehension f xs = Returns ys ->
    forall i x, nth_error xs i = Some x ->
                exists y, f x = Returns y /\ nth_error ys i = Some y.
Proof.
  induction xs as [|x0 xs IH]; intros ys E i x Hx.
  - destruct i; discriminate Hx.
  - simpl in E. destruct (f x0) as [y0| |] eqn:E0; simpl in E;
      try discriminate E.
    destruct (comprehension f xs) as [ys'| |]; simpl in E; try discriminate E.
    injection E as <-. destruct i as [|i].
    + injection Hx as <-. exists y0. split; [exact E0 | reflexivity].
    + simpl in Hx. simpl. apply (IH ys' eq_refl i x Hx).
Qed.

(** X14. For [n >= 1], whenever [generate_roots_of_unity(n)] returns, the
    table has [n + 1] entries, the first is the [int] 0, and the entry at
    position [k], for [k = 1 .. n], is the value that
    [cmath.exp(2j * pi * k / n)] returned; and the call returns when each
    of these [n] calls returns. *)
Theorem generate_roots_of_unity_entries
        (value : Type) (int_zero : value)
        (cmath_exp_2j_pi : Z -> Z -> outcome value) (n : Z) :
  1 <= n ->
  (forall table,
      generate_roots_of_unity int_zero cmath_exp_2j_pi n = Returns table ->
      len_list table = n + 1
      /\ nth_error table 0 = Some int_zero
      /\ forall k, 1 <= k <= n ->
                   exists v, cmath_exp_2j_pi k n = Returns v
                             /\ nth_error table (Z.to_nat k) = Some v)
  /\ ((forall k, 1 <= k <= n -> exists v, cmath_exp_2j_pi k n = Returns v) ->
      exists table,
        generate_roots_of_unity int_zero cmath_exp_2j_pi n = Returns table).
Proof.
  intros Hn. unfold generate_roots_of_unity.
  replace (0 <? n) with true by (symmetry; apply Z.ltb_lt; lia).
  split.
  - intros table E.
    destruct (comprehension (fun k => cmath_exp_2j_pi k n) (range2 1 (n + 1)))
      as [roots| |] eqn:R; simpl in E; try discriminate E.
    injection E as <-. split; [|split; [reflexivity|]].
    + unfold len_list. simpl.
      rewrite (comprehension_length _ _ R), length_range2. lia.
    + intros k Hk.
      replace (Z.to_nat k) with (S (Z.to_nat (k - 1))) by lia.
      cbn [app nth_error].
      destruct (comprehension_nth _ _ R (Z.to_nat (k - 1)) (x := k))
        as [v [Ev Hv]].
      * rewrite nth_error_range2 by lia. f_equal. lia.
      * exists v. split; assumption.
  - intros Hall.
    destruct (@comprehension_total _ _ (fun k => cmath_exp_2j_pi k n)
                (range2 1 (n + 1))) as [roots [R _]].
    + intros k Hin. apply Hall. unfold range2 in Hin.
      apply in_map_iff in Hin. destruct Hin as [j [<- Hj]].
      apply in_seq in Hj. lia.
    + eexists. rewrite R. reflexivity.
Qed.

Lemma generate_roots_of_unity_entries_witness :
  1 <= 3
  /\ (forall table,
        generate_roots_of_unity 0 (fun k n => Returns (k + n)) 3 = Returns table ->
        len_list table = 3 + 1
        /\ nth_error table 0 = Some 0
        /\ forall k, 1 <= k <= 3 ->
                     exists v, (fun k n => Returns (k + n)) k 3 = Returns v
                               /\ nth_error table (Z.to_nat k) = Some v)
  /\ ((forall k, 1 <= k <= 3 ->
                 exists v, (fun k n => Returns (k + n)) k 3 = Returns v) ->
      exists table,
        generate_roots_of_unity 0 (fun k n => Returns (k + n)) 3 = Returns table).
Proof.
  assert (Hn : 1 <= 3) by lia.
  split; [exact Hn|].
  exact (@generate_roots_of_unity_entries Z 0 (fun k n => Returns (k + n)) 3 Hn).
Defined.
